(** * ProofValidator: the proof-sequence validation engine of the Parsons
    puzzle application (src/utils/ProofValidator.js)

    A shallow embedding of the [ProofValidator] class and the statements of
    its specification that concern [validateProof].

    Modelling conventions.
    - Block ids are strings; arrays are lists; an array read [a[i]] is the
      list lookup [a !! i], whose [None] stands for [undefined], so that the
      comparison of two reads is the comparison of two options.
    - [new Set(..)] is a [gset string], [new Map(..)] a [gmap string _];
      only membership, lookup and the number of elements are observed.
    - JavaScript numbers are binary64 numbers (module [Number]): a finite
      number is the rational it denotes, next to [NaN] and the two
      infinities, and every sum, product and quotient is rounded to the
      nearest binary64 number, ties to even (module [Binary64]). Array
      lengths and the integer literals of the source are below 2^53 and
      are held exactly.
    - [null] and an absent key of an object literal are both [None]; where
      the code can answer [undefined] as well as [null], in [nextExpected]
      of [validatePartial], the two are kept apart (module [Next]).
    - A string is the sequence of its code units, one character of the
      string type per unit. *)

From Stdlib Require Import QArith Qround Qabs Qpower Lqa SpecFloat.
From stdpp Require Import gmap strings list fin_maps pretty.

(* ===================================================================== *)
(** ** JavaScript numbers *)
(* ===================================================================== *)

Module Binary64.

(** Rounding of a real (here: rational) result to binary64: 53 bits of
    precision, least exponent -1022 (below it the spacing stays 2^-1074),
    nearest with ties to even. The result is the rational the binary64
    number denotes, in lowest terms; overflow is left to [Number.rounded]. *)

Definition pow2 (k : Z) : Q := (2 ^ k)%Q.

(** For [x > 0]: the [e] with [2^e <= x < 2^(e+1)]. *)
Definition ilog2 (x : Q) : Z :=
  let k := (Z.log2 (Qnum x) - Z.log2 (Z.pos (Qden x)))%Z in
  if Qle_bool (pow2 k) x then k else (k - 1)%Z.

Definition exponent (x : Q) : Z := Z.max (-1022) (ilog2 x).

(** The nearest integer, ties to even. *)
Definition rne (y : Q) : Z :=
  let f := Qfloor y in
  match Qcompare (y - inject_Z f) (1 # 2) with
  | Lt => f
  | Gt => (f + 1)%Z
  | Eq => if Z.even f then f else (f + 1)%Z
  end.

(** For [x > 0]: the nearest multiple of the spacing at [x]. *)
Definition round_pos (x : Q) : Q :=
  let ulp := pow2 (exponent x - 52) in
  (inject_Z (rne (x / ulp)) * ulp)%Q.

Definition round (x : Q) : Q :=
  Qred match Qcompare x 0 with
       | Eq => 0
       | Gt => round_pos x
       | Lt => - round_pos (- x)
       end.

End Binary64.

Module Number.

(** Negative zero is identified with zero: the only divisor of the
    validator is an array length. *)
Inductive t : Type :=
| NaN
| Inf (negative : bool)
| Fin (q : Q).

Definition int (z : Z) : t := Fin (inject_Z z).
Definition of_nat (n : nat) : t := int (Z.of_nat n).

Definition negativeb (q : Q) : bool := negb (Qle_bool 0 q).

(** The binary64 number of a real result: rounded, and infinite when the
    rounded magnitude reaches 2^1024. *)
Definition rounded (q : Q) : t :=
  let r := Binary64.round q in
  if Qle_bool (Binary64.pow2 1024) (Qabs r) then Inf (negativeb r) else Fin r.

Definition add (x y : t) : t :=
  match x, y with
  | NaN, _ | _, NaN => NaN
  | Fin a, Fin b => rounded (a + b)
  | Inf s, Fin _ | Fin _, Inf s => Inf s
  | Inf s, Inf s' => if Bool.eqb s s' then Inf s else NaN
  end.

Definition opp (x : t) : t :=
  match x with
  | NaN => NaN
  | Inf s => Inf (negb s)
  | Fin a => Fin (- a)
  end.

Definition sub (x y : t) : t := add x (opp y).

Definition mul (x y : t) : t :=
  match x, y with
  | NaN, _ | _, NaN => NaN
  | Fin a, Fin b => rounded (a * b)
  | Inf s, Fin b | Fin b, Inf s =>
      if Qeq_bool b 0 then NaN else Inf (xorb s (negativeb b))
  | Inf s, Inf s' => Inf (xorb s s')
  end.

Definition div (x y : t) : t :=
  match x, y with
  | NaN, _ | _, NaN => NaN
  | Fin a, Fin b =>
      if Qeq_bool b 0
      then (if Qeq_bool a 0 then NaN else Inf (negativeb a))
      else rounded (a / b)
  | Fin _, Inf _ => Fin 0
  | Inf s, Fin b => Inf (xorb s (negativeb b))
  | Inf _, Inf _ => NaN
  end.

(** [x <= y] on numbers that are not [NaN]. *)
Definition leb (x y : t) : bool :=
  match x, y with
  | NaN, _ | _, NaN => false
  | Inf true, _ => true
  | _, Inf false => true
  | Inf false, _ => false
  | _, Inf true => false
  | Fin a, Fin b => Qle_bool a b
  end.

(** [Math.min(x, y)] and [Math.max(x, y)]. *)
Definition min (x y : t) : t :=
  match x, y with
  | NaN, _ | _, NaN => NaN
  | _, _ => if leb x y then x else y
  end.

Definition max (x y : t) : t :=
  match x, y with
  | NaN, _ | _, NaN => NaN
  | _, _ => if leb x y then y else x
  end.

(** [Math.round(x)]: the integer nearest to the value of [x], halves
    towards +Infinity. *)
Definition round (x : t) : t :=
  match x with
  | Fin a => int (Qfloor (a + (1 # 2)))
  | _ => x
  end.

(** The number is an integer between [lo] and [hi]. *)
Definition int_between (lo hi : Z) (x : t) : Prop :=
  ∃ z : Z, x = int z ∧ (lo ≤ z ≤ hi)%Z.

(** The number is finite and strictly below the integer [hi]. *)
Definition below (hi : Z) (x : t) : Prop :=
  ∃ z : Z, x = int z ∧ (z < hi)%Z.

End Number.

Declare Scope js_scope.
Delimit Scope js_scope with js.
Bind Scope js_scope with Number.t.
Infix "+" := Number.add : js_scope.
Infix "-" := Number.sub : js_scope.
Infix "*" := Number.mul : js_scope.
Infix "/" := Number.div : js_scope.

(* ===================================================================== *)
(** ** Data model *)
(* ===================================================================== *)

(** [{ id, latex }] *)
Module Block.
Record t : Type := mk { id : string; latex : string }.
End Block.

(** [{ id, title, blocks, solutionOrder }]; the display-only fields of a
    puzzle are never read by the validator. *)
Module Puzzle.
Record t : Type := mk {
  id : string;
  title : string;
  blocks : list Block.t;
  solutionOrder : list string
}.
End Puzzle.

(** [{ blockId, position }]: an entry of [correctlyPositioned] and of
    [duplicates]. *)
Module Placed.
Record t : Type := mk { blockId : string; position : nat }.
End Placed.

(** [{ blockId, position, expectedBlockId }]: an entry of
    [incorrectlyPositioned]. *)
Module Misplaced.
Record t : Type := mk {
  blockId : string;
  position : nat;
  expectedBlockId : string
}.
End Misplaced.

(** The object returned by [_analyzeSequence]. *)
Module Analysis.
Record t : Type := mk {
  totalBlocks : nat;
  userBlocks : nat;
  correctBlocks : nat;
  extraBlocks : nat;
  missingBlocks : nat;
  isComplete : bool;
  correctSequence : bool;
  correctlyPositioned : list Placed.t;
  incorrectlyPositioned : list Misplaced.t;
  duplicates : list Placed.t
}.
End Analysis.

(** The object returned by [validateBlockIds]. *)
Module BlockValidation.
Record t : Type := mk {
  isValid : bool;
  invalidBlocks : list string;
  validBlocks : list string;
  puzzleId : string;
  puzzleTitle : string
}.
End BlockValidation.

(** A hint object. A position hint has the keys [position] and
    [expectedBlockId]; the other kinds have [blockId]. *)
Module Hint.
Record t : Type := mk {
  type : string;
  message : string;
  latex : string;
  position : option nat;
  expectedBlockId : option string;
  blockId : option string
}.

(** The fragment a hint is about. *)
Definition fragmentId (h : t) : option string :=
  match expectedBlockId h with
  | Some i => Some i
  | None => blockId h
  end.
End Hint.

(** The three shapes of the [details] field of a validation result. *)
Module Details.
Inductive t : Type :=
| Counts (totalBlocks correctBlocks incorrectBlocks
          missingBlocks extraBlocks : nat)
| Mismatch (totalBlocks correctBlocks incorrectBlocks
            missingBlocks extraBlocks : nat)
           (puzzleMismatch : bool) (invalidBlocks : list string)
| Sequence (result : Analysis.t).
End Details.

(** The object returned by [validateProof]; the result for an empty order
    has no [hints] key. *)
Module Validation.
Record t : Type := mk {
  isCorrect : bool;
  score : Number.t;
  feedback : string;
  details : Details.t;
  hints : option (list Hint.t)
}.
End Validation.

(** The instance state set up by the constructor. *)
Record ProofValidator : Type := {
  puzzle : Puzzle.t;
  solutionOrder : list string;
  blockMap : gmap string Block.t
}.

(** How an evaluation ends: with a value, or with a thrown error. *)
Inductive Outcome (A : Type) : Type :=
| Returns (value : A)
| Throws (error : string).
Arguments Returns {A} value.
Arguments Throws {A} error.

(* ===================================================================== *)
(** ** The class *)
(* ===================================================================== *)

(** The body of the constructor; a later entry of [puzzle.blocks] with the
    same id replaces an earlier one in the map. *)
Definition constructor (puzzle : Puzzle.t) : ProofValidator :=
  {| puzzle := puzzle;
     solutionOrder := Puzzle.solutionOrder puzzle;
     blockMap :=
       foldl (λ m block, <[Block.id block := block]> m) ∅
             (Puzzle.blocks puzzle) |}.

(** [new ProofValidator(puzzle)]: the body has no [throw]. *)
Definition new_ProofValidator (puzzle : Puzzle.t) : Outcome ProofValidator :=
  Returns (constructor puzzle).

Definition quote : string := String (Ascii.ascii_of_nat 34) EmptyString.

Section Methods.

Variable this : ProofValidator.

Definition validateBlockIds (userOrder : list string) : BlockValidation.t :=
  let validBlockIds : gset string :=
    list_to_set (Block.id <$> Puzzle.blocks this.(puzzle)) in
  let invalidBlocks := filter (λ id, id ∉ validBlockIds) userOrder in
  let validBlocks := filter (λ id, id ∈ validBlockIds) userOrder in
  {| BlockValidation.isValid := bool_decide (length invalidBlocks = 0);
     BlockValidation.invalidBlocks := invalidBlocks;
     BlockValidation.validBlocks := validBlocks;
     BlockValidation.puzzleId := Puzzle.id this.(puzzle);
     BlockValidation.puzzleTitle := Puzzle.title this.(puzzle) |}.

(** The loop returns [false] at the first index that fails. *)
Definition _isCorrectSequence (userOrder : list string) (start stop : nat)
  : bool :=
  forallb
    (λ i, negb (bool_decide (length this.(solutionOrder) ≤ i)
                || bool_decide (userOrder !! i ≠ this.(solutionOrder) !! i)))
    (seq start (stop - start)).

Definition getNextExpectedBlock (currentOrder : list string)
  : option string :=
  if bool_decide (length this.(solutionOrder) ≤ length currentOrder)
  then None
  else if _isCorrectSequence currentOrder 0 (length currentOrder)
  then this.(solutionOrder) !! length currentOrder
  else
    match find (λ i, bool_decide
                       (currentOrder !! i ≠ this.(solutionOrder) !! i))
               (seq 0 (length currentOrder)) with
    | Some i => this.(solutionOrder) !! i
    | None => None
    end.

Definition _findDuplicates (userOrder : list string) : list Placed.t :=
  snd (foldl
         (λ '(seen, duplicates) '(blockId, index),
            if bool_decide (blockId ∈ (seen : gset string))
            then (seen, duplicates ++ [Placed.mk blockId index])
            else ({[blockId]} ∪ seen, duplicates))
         (∅, [])
         (zip userOrder (seq 0 (length userOrder)))).

(** One turn of the classification loop of [_analyzeSequence]; both reads
    are in range for every index the loop visits. *)
Definition classify (userOrder : list string)
    (acc : list Placed.t * list Misplaced.t) (i : nat)
  : list Placed.t * list Misplaced.t :=
  let '(correctlyPositioned, incorrectlyPositioned) := acc in
  match userOrder !! i, this.(solutionOrder) !! i with
  | Some u, Some s =>
      if bool_decide (u = s)
      then (correctlyPositioned ++ [Placed.mk u i], incorrectlyPositioned)
      else (correctlyPositioned,
            incorrectlyPositioned ++ [Misplaced.mk u i s])
  | _, _ => acc
  end.

Definition _analyzeSequence (userOrder : list string) : Analysis.t :=
  let solutionSet : gset string := list_to_set this.(solutionOrder) in
  let userSet : gset string := list_to_set userOrder in
  let correctBlocksInSolution :=
    length (filter (λ id, id ∈ solutionSet) (elements userSet)) in
  let extraBlocks :=
    length (filter (λ id, id ∉ solutionSet) (elements userSet)) in
  let missingBlocks :=
    length (filter (λ id, id ∉ userSet) (elements solutionSet)) in
  let isComplete :=
    bool_decide (length userOrder = length this.(solutionOrder))
    && bool_decide (missingBlocks = 0) && bool_decide (extraBlocks = 0) in
  let correctSequence :=
    isComplete && _isCorrectSequence userOrder 0 (length userOrder) in
  let '(correctlyPositioned, incorrectlyPositioned) :=
    foldl (classify userOrder) ([], [])
          (seq 0 (length userOrder `min` length this.(solutionOrder))) in
  {| Analysis.totalBlocks := length this.(solutionOrder);
     Analysis.userBlocks := length userOrder;
     Analysis.correctBlocks := correctBlocksInSolution;
     Analysis.extraBlocks := extraBlocks;
     Analysis.missingBlocks := missingBlocks;
     Analysis.isComplete := isComplete;
     Analysis.correctSequence := correctSequence;
     Analysis.correctlyPositioned := correctlyPositioned;
     Analysis.incorrectlyPositioned := incorrectlyPositioned;
     Analysis.duplicates := _findDuplicates userOrder |}.

Definition _calculateScore (result : Analysis.t) : Number.t :=
  if Analysis.correctSequence result then Number.int 100
  else
    let positionScore :=
      (Number.of_nat (length (Analysis.correctlyPositioned result))
       / Number.of_nat (Analysis.totalBlocks result) * Number.int 60)%js in
    let presenceScore :=
      (Number.of_nat (Analysis.correctBlocks result)
       / Number.of_nat (Analysis.totalBlocks result) * Number.int 40)%js in
    let extraPenalty :=
      Number.min (Number.of_nat (Analysis.extraBlocks result) * Number.int 5)%js
                 (Number.int 20) in
    Number.max (Number.int 0)
               (Number.round (positionScore + presenceScore - extraPenalty)%js).

Definition _generateFeedback (result : Analysis.t) : string :=
  if Analysis.correctSequence result
  then "🎉 Excellent! Your proof is completely correct!"
  else
    let feedback : list string := [] in
    let feedback :=
      if bool_decide (0 < Analysis.missingBlocks result)
      then feedback ++ ["❌ Missing " +:+ pretty (Analysis.missingBlocks result)
                        +:+ " block(s) from your proof."]
      else feedback in
    let feedback :=
      if bool_decide (0 < Analysis.extraBlocks result)
      then feedback ++ ["⚠️ You have " +:+ pretty (Analysis.extraBlocks result)
                        +:+ " extra or incorrect block(s)."]
      else feedback in
    let feedback :=
      if bool_decide (0 < length (Analysis.duplicates result))
      then feedback ++ ["🔄 You have "
                        +:+ pretty (length (Analysis.duplicates result))
                        +:+ " duplicate block(s)."]
      else feedback in
    let feedback :=
      if bool_decide (0 < length (Analysis.incorrectlyPositioned result))
      then feedback ++ ["📍 "
                        +:+ pretty (length (Analysis.incorrectlyPositioned result))
                        +:+ " block(s) are in the wrong position."]
      else feedback in
    let feedback :=
      if bool_decide (0 < length (Analysis.correctlyPositioned result))
      then feedback ++ ["✅ "
                        +:+ pretty (length (Analysis.correctlyPositioned result))
                        +:+ " block(s) are correctly positioned."]
      else feedback in
    if bool_decide (0 < length feedback)
    then String.concat " " feedback
    else "Keep working on your proof!".

(** The state threaded through [_generateHints]: the [hints] array and the
    [usedBlocks] set. *)
Definition HintState : Type := (list Hint.t * gset string)%type.

(** The first loop over [solutionOrder]: it stops at the first missing,
    not yet suggested block that the map knows. *)
Fixpoint firstMissingHint (userOrder : list string) (ids : list string)
    (st : HintState) : HintState :=
  let '(hints, usedBlocks) := st in
  match ids with
  | [] => st
  | blockId :: rest =>
      if bool_decide (length hints < 3)
      then
        if bool_decide (blockId ∉ userOrder)
           && bool_decide (blockId ∉ usedBlocks)
        then
          match this.(blockMap) !! blockId with
          | Some missingBlock =>
              (hints ++ [Hint.mk "missing" "You're missing this important step:"
                                 (Block.latex missingBlock)
                                 None None (Some blockId)],
               {[blockId]} ∪ usedBlocks)
          | None => firstMissingHint userOrder rest st
          end
        else firstMissingHint userOrder rest st
      else st
  end.

(** The last loop, over [missingIds]. *)
Fixpoint moreMissingHints (missingIds : list string) (st : HintState)
  : HintState :=
  let '(hints, usedBlocks) := st in
  match missingIds with
  | [] => st
  | missingId :: rest =>
      if bool_decide (length hints < 3)
      then
        match this.(blockMap) !! missingId with
        | Some missingBlock =>
            moreMissingHints rest
              (hints ++ [Hint.mk "missing" "Consider this step:"
                                 (Block.latex missingBlock)
                                 None None (Some missingId)],
               {[missingId]} ∪ usedBlocks)
        | None => moreMissingHints rest st
        end
      else st
  end.

(** Hint about the first incorrect position. *)
Definition positionHint (result : Analysis.t) (st : HintState) : HintState :=
  let '(hints, usedBlocks) := st in
  match Analysis.incorrectlyPositioned result with
  | firstError :: _ =>
      match this.(blockMap) !! Misplaced.expectedBlockId firstError with
      | Some expectedBlock =>
          if bool_decide (Misplaced.expectedBlockId firstError ∉ usedBlocks)
          then
            (hints ++ [Hint.mk "position"
                         ("The block at position "
                          +:+ pretty (Misplaced.position firstError + 1)
                          +:+ " should be:")
                         (Block.latex expectedBlock)
                         (Some (Misplaced.position firstError))
                         (Some (Misplaced.expectedBlockId firstError))
                         None],
             {[Misplaced.expectedBlockId firstError]} ∪ usedBlocks)
          else st
      | None => st
      end
  | [] => st
  end.

(** Hint about missing blocks. *)
Definition missingHint (result : Analysis.t) (userOrder : list string)
    (st : HintState) : HintState :=
  if bool_decide (0 < Analysis.missingBlocks result)
     && bool_decide (length (fst st) < 3)
  then firstMissingHint userOrder this.(solutionOrder) st
  else st.

(** Hint about the next expected block; an empty id is falsy. *)
Definition nextHint (userOrder : list string) (st : HintState) : HintState :=
  let '(hints, usedBlocks) := st in
  if bool_decide (length userOrder < length this.(solutionOrder))
     && bool_decide (length hints < 3)
  then
    match getNextExpectedBlock userOrder with
    | Some nextExpected =>
        if bool_decide (nextExpected ≠ EmptyString)
           && bool_decide (nextExpected ∉ usedBlocks)
        then
          match this.(blockMap) !! nextExpected with
          | Some nextBlock =>
              (hints ++ [Hint.mk "next" "Try adding this block next:"
                                 (Block.latex nextBlock)
                                 None None (Some nextExpected)],
               {[nextExpected]} ∪ usedBlocks)
          | None => st
          end
        else st
    | None => st
    end
  else st.

(** Additional missing blocks while there is room. *)
Definition fillHints (result : Analysis.t) (userOrder : list string)
    (st : HintState) : HintState :=
  let '(hints, usedBlocks) := st in
  if bool_decide (length hints < 3)
     && bool_decide (0 < Analysis.missingBlocks result)
  then
    let missingIds :=
      filter (λ id, (id ∉ userOrder) ∧ (id ∉ usedBlocks))
             this.(solutionOrder) in
    moreMissingHints missingIds st
  else st.

Definition errorHint : Hint.t :=
  Hint.mk "error"
          "Please refresh the page - there seems to be a puzzle mismatch."
          EmptyString None None None.

Definition _generateHints (result : Analysis.t) (userOrder : list string)
  : list Hint.t :=
  let st : HintState := ([], ∅) in
  if Analysis.correctSequence result then fst st
  else
    let blockValidation := validateBlockIds userOrder in
    if negb (BlockValidation.isValid blockValidation) then [errorHint]
    else
      let st := positionHint result st in
      let st := missingHint result userOrder st in
      let st := nextHint userOrder st in
      let st := fillHints result userOrder st in
      fst st.

Definition validateProof (userOrder : list string) : Validation.t :=
  if bool_decide (length userOrder = 0)
  then
    {| Validation.isCorrect := false;
       Validation.score := Number.int 0;
       Validation.feedback :=
         "Please arrange the proof blocks to create a valid proof.";
       Validation.details :=
         Details.Counts (length this.(solutionOrder)) 0 0
                        (length this.(solutionOrder)) 0;
       Validation.hints := None |}
  else
    let blockValidation := validateBlockIds userOrder in
    if negb (BlockValidation.isValid blockValidation)
    then
      {| Validation.isCorrect := false;
         Validation.score := Number.int 0;
         Validation.feedback :=
           "Error: Some blocks don't belong to the current puzzle "
           +:+ quote +:+ Puzzle.title this.(puzzle) +:+ quote
           +:+ ". Please refresh the page.";
         Validation.details :=
           Details.Mismatch (length this.(solutionOrder)) 0
                            (length userOrder)
                            (length this.(solutionOrder))
                            (length userOrder)
                            true
                            (BlockValidation.invalidBlocks blockValidation);
         Validation.hints := Some [] |}
    else
      let result := _analyzeSequence userOrder in
      let feedback := _generateFeedback result in
      {| Validation.isCorrect :=
           Analysis.isComplete result && Analysis.correctSequence result;
         Validation.score := _calculateScore result;
         Validation.feedback := feedback;
         Validation.details := Details.Sequence result;
         Validation.hints := Some (_generateHints result userOrder) |}.

End Methods.

(* ===================================================================== *)
(** ** The rest of the class, its utilities and its caller *)
(* ===================================================================== *)

(** What [validatePartial] reports as the next expected block: a block id,
    [null], or [undefined] where it reads the canonical order out of
    range. *)
Module Next.
Inductive t : Type := Undefined | Null | Id (id : string).

(** [array[i]] *)
Definition element (array : list string) (i : nat) : t :=
  match array !! i with
  | Some id => Id id
  | None => Undefined
  end.
End Next.

(** The object returned by [validatePartial]; the result for an empty order
    has no [currentLength] and [totalLength] keys. *)
Module Partial.
Record t : Type := mk {
  isValid : bool;
  correctSoFar : bool;
  nextExpected : Next.t;
  progress : Number.t;
  currentLength : option nat;
  totalLength : option nat
}.
End Partial.

(** An entry of [blockTypes] in the object returned by [getStatistics]. *)
Module BlockType.
Record t : Type := mk { id : string; preview : string }.
End BlockType.

(** The object returned by [getStatistics]. *)
Module Statistics.
Record t : Type := mk {
  totalBlocks : nat;
  blockTypes : list BlockType.t;
  difficulty : string
}.
End Statistics.

(** The object returned by [debugValidation], its [puzzle] and [userInput]
    objects flattened into the record. *)
Module Debug.
Record t : Type := mk {
  puzzleId : string;
  puzzleTitle : string;
  totalBlocks : nat;
  solutionOrder : list string;
  userOrder : list string;
  userBlocks : nat;
  analysis : Analysis.t;
  hints : list Hint.t;
  validation : Validation.t
}.
End Debug.

Section OtherMethods.

Variable this : ProofValidator.

Definition validatePartial (userOrder : list string) : Partial.t :=
  if bool_decide (length userOrder = 0)
  then
    {| Partial.isValid := true;
       Partial.correctSoFar := true;
       Partial.nextExpected := Next.element this.(solutionOrder) 0;
       Partial.progress := Number.int 0;
       Partial.currentLength := None;
       Partial.totalLength := None |}
  else
    let correctSoFar := _isCorrectSequence this userOrder 0 (length userOrder) in
    let nextExpectedIndex := length userOrder in
    let nextExpected :=
      if bool_decide (nextExpectedIndex < length this.(solutionOrder))
      then Next.element this.(solutionOrder) nextExpectedIndex
      else Next.Null in
    {| Partial.isValid := correctSoFar;
       Partial.correctSoFar := correctSoFar;
       Partial.nextExpected := nextExpected;
       Partial.progress :=
         (Number.of_nat (length userOrder)
          / Number.of_nat (length this.(solutionOrder)) * Number.int 100)%js;
       Partial.currentLength := Some (length userOrder);
       Partial.totalLength := Some (length this.(solutionOrder)) |}.

(** The position is an integer, possibly negative; the loop over the
    earlier positions returns [false] at the first one that fails. *)
Definition canPlaceBlock (blockId : string) (position : Z)
    (currentOrder : list string) : bool :=
  if bool_decide (position < 0)%Z
     || bool_decide (Z.of_nat (length this.(solutionOrder)) ≤ position)%Z
  then false
  else if bool_decide (this.(solutionOrder) !! Z.to_nat position ≠ Some blockId)
  then false
  else
    forallb
      (λ i, negb (bool_decide (length currentOrder ≤ i)
                  || bool_decide (currentOrder !! i ≠ this.(solutionOrder) !! i)))
      (seq 0 (Z.to_nat position)).

Definition _truncateLatex (latex : string) (maxLength : nat) : string :=
  if bool_decide (String.length latex ≤ maxLength)
  then latex
  else String.substring 0 maxLength latex +:+ "...".

Definition _estimateDifficulty : string :=
  let blockCount := length this.(solutionOrder) in
  if bool_decide (blockCount ≤ 5) then "Easy"
  else if bool_decide (blockCount ≤ 10) then "Medium"
  else "Hard".

Definition getStatistics : Statistics.t :=
  {| Statistics.totalBlocks := length this.(solutionOrder);
     Statistics.blockTypes :=
       (λ block, BlockType.mk (Block.id block)
                              (_truncateLatex (Block.latex block) 30))
       <$> Puzzle.blocks this.(puzzle);
     Statistics.difficulty := _estimateDifficulty |}.

Definition debugValidation (userOrder : list string) : Debug.t :=
  let result := _analyzeSequence this userOrder in
  let hints := _generateHints this result userOrder in
  {| Debug.puzzleId := Puzzle.id this.(puzzle);
     Debug.puzzleTitle := Puzzle.title this.(puzzle);
     Debug.totalBlocks := length this.(solutionOrder);
     Debug.solutionOrder := this.(solutionOrder);
     Debug.userOrder := userOrder;
     Debug.userBlocks := length userOrder;
     Debug.analysis := result;
     Debug.hints := hints;
     Debug.validation := validateProof this userOrder |}.

End OtherMethods.

(** The functions exported beside the class. *)
Module ValidationUtils.

Definition isCorrectOrder (userOrder correctOrder : list string) : bool :=
  if bool_decide (length userOrder ≠ length correctOrder) then false
  else
    forallb (λ '(block, index), bool_decide (Some block = correctOrder !! index))
            (zip userOrder (seq 0 (length userOrder))).

Definition calculateSimilarity (userOrder correctOrder : list string)
  : Number.t :=
  if bool_decide (length correctOrder = 0) then Number.int 0
  else
    let minLength := length userOrder `min` length correctOrder in
    let matches :=
      foldl (λ matches i,
               if bool_decide (userOrder !! i = correctOrder !! i)
               then matches + 1 else matches)
            0 (seq 0 minLength) in
    (Number.of_nat matches / Number.of_nat (length correctOrder)
     * Number.int 100)%js.

(** The loop of [findCorrectPrefix]: it counts up to the first index where
    the orders differ. *)
Fixpoint prefixLoop (userOrder correctOrder : list string)
    (indices : list nat) (length : nat) : nat :=
  match indices with
  | [] => length
  | i :: rest =>
      if bool_decide (userOrder !! i = correctOrder !! i)
      then prefixLoop userOrder correctOrder rest (length + 1)
      else length
  end.

Definition findCorrectPrefix (userOrder correctOrder : list string) : nat :=
  let minLength := length userOrder `min` length correctOrder in
  prefixLoop userOrder correctOrder (seq 0 minLength) 0.

End ValidationUtils.

(** The two score classifiers of the component that shows a validation
    result (ProofValidationDisplay.jsx); [score >= n] is false on [NaN]. *)
Module ProofValidationDisplay.

Definition getScoreColor (score : Number.t) : string :=
  if Number.leb (Number.int 90) score then "#4CAF50"
  else if Number.leb (Number.int 70) score then "#FFC107"
  else if Number.leb (Number.int 50) score then "#FF9800"
  else "#F44336".

Definition getScoreEmoji (score : Number.t) : string :=
  if Number.leb (Number.int 90) score then "🌟"
  else if Number.leb (Number.int 70) score then "👍"
  else if Number.leb (Number.int 50) score then "👌"
  else "💪".

End ProofValidationDisplay.

(* ===================================================================== *)
(** ** Vocabulary of the specification *)
(* ===================================================================== *)

(** The ids of the fragment catalogue of a puzzle. *)
Definition blockIds (p : Puzzle.t) : list string :=
  Block.id <$> Puzzle.blocks p.

(** The reference data the specification calls a valid puzzle: a non-empty
    canonical order without duplicates that covers exactly the catalogue. *)
Definition well_formed (p : Puzzle.t) : Prop :=
  Puzzle.solutionOrder p ≠ []
  ∧ NoDup (Puzzle.solutionOrder p)
  ∧ ∀ id, id ∈ Puzzle.solutionOrder p ↔ id ∈ blockIds p.

(** [u] is [s] with two adjacent, distinct entries exchanged. *)
Definition adjacent_swap (s u : list string) : Prop :=
  ∃ l1 x y l2, x ≠ y ∧ s = l1 ++ x :: y :: l2 ∧ u = l1 ++ y :: x :: l2.

(** The validation of a learner order against a puzzle. *)
Definition validate (p : Puzzle.t) (userOrder : list string) : Validation.t :=
  validateProof (constructor p) userOrder.

(** The fragment ids a hint list refers to, one entry per hint. *)
Definition hint_ids (hints : list Hint.t) : list (option string) :=
  Hint.fragmentId <$> hints.

(** The invariant of hint generation: the hints made so far are about
    distinct fragments, each of them recorded in [usedBlocks]. *)
Definition hints_tracked (st : HintState) : Prop :=
  NoDup (hint_ids (fst st))
  ∧ Forall (λ h, ∃ id, Hint.fragmentId h = Some id ∧ id ∈ snd st) (fst st).

(** What a hint of a validation result says: it is about an id of the
    canonical order that the map knows, it carries the text of the block
    the map holds for that id, and its kind tells the truth. A position
    hint names an index of the learner order where the canonical order has
    this id and the learner order another one; a missing hint is about an
    id the learner order does not hold; a next hint is about the next
    expected block. *)
Definition hint_sound (this : ProofValidator) (userOrder : list string)
    (h : Hint.t) : Prop :=
  ∃ id block,
    Hint.fragmentId h = Some id
    ∧ this.(blockMap) !! id = Some block
    ∧ Hint.latex h = Block.latex block
    ∧ id ∈ this.(solutionOrder)
    ∧ (Hint.type h = "position"
       ∧ (∃ i, Hint.position h = Some i
               ∧ this.(solutionOrder) !! i = Some id
               ∧ i < length userOrder
               ∧ userOrder !! i ≠ Some id)
       ∨ Hint.type h = "missing" ∧ id ∉ userOrder
       ∨ Hint.type h = "next"
         ∧ getNextExpectedBlock this userOrder = Some id).

(** The largest value the score formula reaches before [Math.round] when
    the share of correctly positioned entries is at most [A] (with every
    block present and no penalty). *)
Definition score_cap (A : Q) : Q :=
  Binary64.round
    (Binary64.round (Binary64.round (Binary64.round A * 60) + 40)).

(** The binary64 operations as the Standard Library specifies them
    (SpecFloat, precision 53, exponents up to 1024), to compare [Number]
    with. *)
Module Spec64.

Definition of_nat (n : nat) : spec_float :=
  binary_normalize 53 1024 (Z.of_nat n) 0 false.

Definition to_number (f : spec_float) : Number.t :=
  match f with
  | S754_zero _ => Number.Fin 0
  | S754_infinity s => Number.Inf s
  | S754_nan => Number.NaN
  | S754_finite s m e =>
      Number.Fin (Qred (inject_Z (cond_Zopp s (Z.pos m)) * Binary64.pow2 e))
  end.

(** [cp / total * 60 + cb / total * 40 - penalty] *)
Definition partialScore (cp cb penalty total : nat) : spec_float :=
  SFsub 53 1024
    (SFadd 53 1024
       (SFmul 53 1024 (SFdiv 53 1024 (of_nat cp) (of_nat total)) (of_nat 60))
       (SFmul 53 1024 (SFdiv 53 1024 (of_nat cb) (of_nat total)) (of_nat 40)))
    (of_nat penalty).

(** [a / total * 100] *)
Definition share (a total : nat) : spec_float :=
  SFmul 53 1024 (SFdiv 53 1024 (of_nat a) (of_nat total)) (of_nat 100).

End Spec64.

(** The same two expressions with the operations of [Number]. *)
Definition partialScore (cp cb penalty total : nat) : Number.t :=
  (Number.of_nat cp / Number.of_nat total * Number.int 60
   + Number.of_nat cb / Number.of_nat total * Number.int 40
   - Number.of_nat penalty)%js.

Definition share (a total : nat) : Number.t :=
  (Number.of_nat a / Number.of_nat total * Number.int 100)%js.

(** Equality of numbers as a boolean, on the rationals in lowest terms. *)
Definition number_eqb (x y : Number.t) : bool :=
  match x, y with
  | Number.NaN, Number.NaN => true
  | Number.Inf s, Number.Inf s' => Bool.eqb s s'
  | Number.Fin a, Number.Fin b =>
      Z.eqb (Qnum a) (Qnum b) && Pos.eqb (Qden a) (Qden b)
  | _, _ => false
  end.

(* ===================================================================== *)
(** ** Example puzzles *)
(* ===================================================================== *)

(** Canonical order a, b, c, d over the four blocks of that name. *)
Definition abcd (la lb lc ld : string) : Puzzle.t :=
  Puzzle.mk "abcd" "Four steps"
    [Block.mk "a" la; Block.mk "b" lb; Block.mk "c" lc; Block.mk "d" ld]
    ["a"; "b"; "c"; "d"].

(** Canonical order a, b. *)
Definition ab : Puzzle.t :=
  Puzzle.mk "ab" "Two steps"
    [Block.mk "a" "A"; Block.mk "b" "B"] ["a"; "b"].

(** [n] blocks named by their decimal index, in that order. *)
Definition numbered (n : nat) : Puzzle.t :=
  Puzzle.mk "numbered" "Numbered steps"
    ((λ i : nat, Block.mk (pretty i) "step") <$> seq 0 n)
    ((pretty : nat → string) <$> seq 0 n).

(** The canonical order of [numbered n] with its first two entries
    exchanged. *)
Definition numbered_swapped (n : nat) : list string :=
  "1" :: "0" :: ((pretty : nat → string) <$> seq 2 (n - 2)).

(** No blocks and an empty canonical order. *)
Definition empty_puzzle : Puzzle.t := Puzzle.mk "empty" "Empty" [] [].

(** The canonical order names block c twice. *)
Definition repeated_step : Puzzle.t :=
  Puzzle.mk "rep" "Repeated step"
    [Block.mk "a" "A"; Block.mk "b" "B"; Block.mk "c" "C"]
    ["a"; "b"; "c"; "c"].

(** A catalogue of one block and an empty canonical order. *)
Definition no_steps : Puzzle.t :=
  Puzzle.mk "none" "No steps" [Block.mk "a" "A"] [].

(* ===================================================================== *)
(** ** Rounding to binary64 *)
(* ===================================================================== *)

Section Binary64Facts.

Import Binary64.
Local Open Scope Q_scope.

Lemma pow2_pos (k : Z) : 0 < pow2 k.
Proof. apply Qpower_0_lt. reflexivity. Qed.

Lemma pow2_succ (k : Z) : pow2 (k + 1) == 2 * pow2 k.
Proof.
  unfold pow2. rewrite Qpower_plus by discriminate.
  rewrite Qpower_1_r. apply Qmult_comm.
Qed.

Lemma pow2_add (a b : Z) : pow2 (a + b) == pow2 a * pow2 b.
Proof. unfold pow2. apply Qpower_plus. discriminate. Qed.

Lemma pow2_le (a b : Z) : (a <= b)%Z -> pow2 a <= pow2 b.
Proof. intros H. apply Qpower_le_compat_l; [done|]. discriminate. Qed.

Lemma pow2_nat (z : Z) : (0 <= z)%Z -> pow2 z == inject_Z (2 ^ z).
Proof. intros H. unfold pow2. by rewrite Zpower_Qpower. Qed.

Lemma ilog2_spec (x : Q) :
  0 < x -> pow2 (ilog2 x) <= x /\ x < pow2 (ilog2 x + 1).
Proof.
  intros Hx. destruct x as [n d].
  assert (0 < n)%Z as Hn by (revert Hx; unfold Qlt; simpl; lia).
  unfold ilog2. simpl Qnum. simpl Qden.
  set (ln := Z.log2 n). set (ld := Z.log2 (Z.pos d)).
  destruct (Z.log2_spec n Hn) as [Hn1 Hn2].
  destruct (Z.log2_spec (Z.pos d) eq_refl) as [Hd1 Hd2].
  fold ln in Hn1, Hn2. fold ld in Hd1, Hd2.
  assert (0 <= ln)%Z as Hln by apply Z.log2_nonneg.
  assert (0 <= ld)%Z as Hld by apply Z.log2_nonneg.
  assert (pow2 (ln - ld) * pow2 ld == pow2 ln) as Hk.
  { rewrite <- pow2_add. by replace (ln - ld + ld)%Z with ln by lia. }
  pose proof (pow2_pos (ln - ld)) as Hkpos.
  pose proof (pow2_pos ld) as Hdpos.
  assert (pow2 ln <= inject_Z n) as HA1 by (rewrite pow2_nat, <- Zle_Qle; done).
  assert (inject_Z n < 2 * pow2 ln) as HA2.
  { rewrite <- pow2_succ, pow2_nat, <- Zlt_Qlt by lia. done. }
  assert (pow2 ld <= inject_Z (Z.pos d)) as HD1
    by (rewrite pow2_nat, <- Zle_Qle; done).
  assert (inject_Z (Z.pos d) < 2 * pow2 ld) as HD2.
  { rewrite <- pow2_succ, pow2_nat, <- Zlt_Qlt by lia. done. }
  assert ((n # d) * inject_Z (Z.pos d) == inject_Z n) as Hx'.
  { unfold Qeq, Qmult, inject_Z. simpl. lia. }
  assert (0 < inject_Z (Z.pos d)) as Hdq by reflexivity.
  revert Hk Hkpos Hdpos HA1 HA2 HD1 HD2 Hx' Hdq Hx.
  generalize (pow2 ln) (pow2 ld) (inject_Z n) (inject_Z (Z.pos d)).
  intros A D N DD Hk Hkpos Hdpos HA1 HA2 HD1 HD2 Hx' Hdq Hx.
  destruct (Qle_bool (pow2 (ln - ld)) (n # d)) eqn:Htest.
  - apply Qle_bool_iff in Htest. split; [done|].
    rewrite pow2_succ. generalize dependent (pow2 (ln - ld)).
    generalize dependent (n # d). intros X HX1 HX2 K HK1 HK2 HK3. nra.
  - assert (n # d < pow2 (ln - ld)) as Htest'.
    { apply Qnot_le_lt. intros H. apply Qle_bool_iff in H. congruence. }
    replace (ln - ld - 1 + 1)%Z with (ln - ld)%Z by lia. split; [|done].
    assert (pow2 (ln - ld) == 2 * pow2 (ln - ld - 1)) as Hhalf.
    { rewrite <- pow2_succ. by replace (ln - ld - 1 + 1)%Z with (ln - ld)%Z by lia. }
    pose proof (pow2_pos (ln - ld - 1)) as Hpos'.
    generalize dependent (pow2 (ln - ld - 1)). intros K'.
    generalize dependent (pow2 (ln - ld)).
    generalize dependent (n # d). intros X HX1 HX2 K HK1 HK2 HK3 HK4 HK5. nra.
Qed.

Ltac qcompare_prop H :=
  first [apply <- Qeq_alt in H | apply <- Qlt_alt in H | apply <- Qgt_alt in H].

Lemma rne_floor (y : Q) : (Qfloor y <= rne y <= Qfloor y + 1)%Z.
Proof.
  unfold rne. destruct (Qcompare _ _); [destruct (Z.even _)|..]; lia.
Qed.

Lemma rne_le_int (y : Q) (z : Z) : y <= inject_Z z -> (rne y <= z)%Z.
Proof.
  intros Hy. pose proof (Qfloor_le y) as Hf.
  assert (Qfloor y <= z)%Z as Hfz.
  { rewrite <- (Qfloor_Z z). by apply Qfloor_resp_le. }
  destruct (Z.eq_dec (Qfloor y) z) as [Heq|Hne].
  - unfold rne. rewrite Heq in *.
    destruct (Qcompare (y - inject_Z z) (1 # 2)) eqn:Hc; [| lia |];
      exfalso; qcompare_prop Hc; lra.
  - pose proof (rne_floor y). lia.
Qed.

Lemma rne_ge_int (y : Q) (z : Z) : inject_Z z <= y -> (z <= rne y)%Z.
Proof.
  intros Hy. assert (z <= Qfloor y)%Z as Hfz.
  { rewrite <- (Qfloor_Z z). by apply Qfloor_resp_le. }
  pose proof (rne_floor y). lia.
Qed.

Lemma rne_mono (a b : Q) : a <= b -> (rne a <= rne b)%Z.
Proof.
  intros Hab. pose proof (Qfloor_resp_le _ _ Hab) as Hf.
  pose proof (rne_floor a) as Ha. pose proof (rne_floor b) as Hb.
  destruct (Z.eq_dec (Qfloor a) (Qfloor b)) as [Heq|Hne]; [|lia].
  unfold rne in *. rewrite Heq in *.
  destruct (Qcompare (a - inject_Z (Qfloor b)) (1 # 2)) eqn:Hca;
    destruct (Qcompare (b - inject_Z (Qfloor b)) (1 # 2)) eqn:Hcb;
    try destruct (Z.even _); try lia; exfalso;
    qcompare_prop Hca; qcompare_prop Hcb; lra.
Qed.

Lemma ilog2_mono (x y : Q) : 0 < x -> x <= y -> (ilog2 x <= ilog2 y)%Z.
Proof.
  intros Hx Hxy. assert (0 < y) as Hy by lra.
  destruct (ilog2_spec x Hx) as [Hx1 _].
  destruct (ilog2_spec y Hy) as [_ Hy2].
  destruct (Z_le_gt_dec (ilog2 x) (ilog2 y)) as [|Hgt]; [done|].
  pose proof (pow2_le (ilog2 y + 1) (ilog2 x) ltac:(lia)). lra.
Qed.

Lemma exponent_mono (x y : Q) : 0 < x -> x <= y -> (exponent x <= exponent y)%Z.
Proof. intros Hx Hxy. pose proof (ilog2_mono x y Hx Hxy). unfold exponent. lia. Qed.

Lemma exponent_upper (x : Q) : 0 < x -> x < pow2 (exponent x + 1).
Proof.
  intros Hx. destruct (ilog2_spec x Hx) as [_ H].
  pose proof (pow2_le (ilog2 x + 1) (exponent x + 1)
                ltac:(unfold exponent; lia)). lra.
Qed.

Lemma exponent_lower (x : Q) :
  0 < x -> (-1022 < exponent x)%Z -> pow2 (exponent x) <= x.
Proof.
  intros Hx He. destruct (ilog2_spec x Hx) as [H _].
  by replace (exponent x) with (ilog2 x) by (unfold exponent in *; lia).
Qed.

Lemma ulp_scale (e : Z) (k : Z) :
  (0 <= k)%Z -> inject_Z (2 ^ k) * pow2 (e - 52) == pow2 (e - 52 + k).
Proof. intros Hk. rewrite pow2_add, <- pow2_nat by done. apply Qmult_comm. Qed.

Lemma round_pos_nonneg (x : Q) : 0 <= x -> 0 <= round_pos x.
Proof.
  intros Hx. unfold round_pos. cbv zeta.
  pose proof (pow2_pos (exponent x - 52)) as Hu.
  apply Qmult_le_0_compat; [|lra].
  change 0 with (inject_Z 0). rewrite <- Zle_Qle. apply rne_ge_int.
  apply Qle_shift_div_l; [done|]. by rewrite Qmult_0_l.
Qed.

Lemma round_pos_upper (x : Q) : 0 < x -> round_pos x <= pow2 (exponent x + 1).
Proof.
  intros Hx. unfold round_pos. cbv zeta.
  pose proof (pow2_pos (exponent x - 52)) as Hu.
  pose proof (exponent_upper x Hx) as Hup.
  pose proof (ulp_scale (exponent x) 53 ltac:(lia)) as Hs.
  replace (exponent x - 52 + 53)%Z with (exponent x + 1)%Z in Hs by lia.
  rewrite <- Hs. apply Qmult_le_compat_r; [|lra].
  rewrite <- Zle_Qle. apply rne_le_int.
  apply Qle_shift_div_r; [done|]. lra.
Qed.

Lemma round_pos_lower (x : Q) :
  0 < x -> (-1022 < exponent x)%Z -> pow2 (exponent x) <= round_pos x.
Proof.
  intros Hx He. unfold round_pos. cbv zeta.
  pose proof (pow2_pos (exponent x - 52)) as Hu.
  pose proof (exponent_lower x Hx He) as Hlo.
  pose proof (ulp_scale (exponent x) 52 ltac:(lia)) as Hs.
  replace (exponent x - 52 + 52)%Z with (exponent x) in Hs by lia.
  rewrite <- Hs. apply Qmult_le_compat_r; [|lra].
  rewrite <- Zle_Qle. apply rne_ge_int.
  apply Qle_shift_div_l; [done|]. lra.
Qed.

Lemma round_pos_mono (x y : Q) : 0 < x -> x <= y -> round_pos x <= round_pos y.
Proof.
  intros Hx Hxy. assert (0 < y) as Hy by lra.
  pose proof (exponent_mono x y Hx Hxy) as He.
  destruct (Z.eq_dec (exponent x) (exponent y)) as [Heq|Hne].
  - unfold round_pos. cbv zeta. rewrite Heq.
    pose proof (pow2_pos (exponent y - 52)) as Hu.
    apply Qmult_le_compat_r; [|lra]. rewrite <- Zle_Qle. apply rne_mono.
    apply Qmult_le_compat_r; [done|]. apply Qinv_le_0_compat. lra.
  - pose proof (round_pos_upper x Hx).
    pose proof (round_pos_lower y Hy ltac:(unfold exponent in *; lia)).
    pose proof (pow2_le (exponent x + 1) (exponent y) ltac:(lia)). lra.
Qed.

Lemma round_mono (x y : Q) : x <= y -> round x <= round y.
Proof.
  intros Hxy. unfold round. rewrite !Qred_correct.
  destruct (Qcompare x 0) eqn:Hx; destruct (Qcompare y 0) eqn:Hy;
    qcompare_prop Hx; qcompare_prop Hy; try lra.
  - apply round_pos_nonneg. lra.
  - pose proof (round_pos_nonneg (- x)). lra.
  - apply Qopp_le_compat. apply round_pos_mono; lra.
  - pose proof (round_pos_nonneg (- x)). pose proof (round_pos_nonneg y). lra.
  - by apply round_pos_mono.
Qed.

Lemma round_between (x lo hi : Q) :
  lo <= x <= hi -> round lo = lo -> round hi = hi -> lo <= round x <= hi.
Proof.
  intros [Hlo Hhi] Hrlo Hrhi. split.
  - apply Qle_trans with (round lo); [rewrite Hrlo; apply Qle_refl|].
    by apply round_mono.
  - apply Qle_trans with (round hi); [|rewrite Hrhi; apply Qle_refl].
    by apply round_mono.
Qed.

End Binary64Facts.

(** On all small counts the operations of [Number] give what those of the
    Standard Library's binary64 specification give: the score formula for
    up to 12 blocks with every penalty, for up to 64 blocks with every
    block present, for up to 256 blocks with every block present and two
    out of place, and the share formula for up to 64 blocks. *)
Lemma partialScore_agrees_with_SpecFloat :
  forallb (λ t, forallb (λ cp, forallb (λ cb, forallb (λ e,
    number_eqb (Spec64.to_number (Spec64.partialScore cp cb (5 * e) t))
               (partialScore cp cb (5 * e) t))
    (seq 0 5)) (seq 0 (S t))) (seq 0 (S t))) (seq 0 13) = true
  ∧ forallb (λ t, forallb (λ cp,
      number_eqb (Spec64.to_number (Spec64.partialScore cp t 0 t))
                 (partialScore cp t 0 t))
      (seq 0 (S t))) (seq 0 65) = true
  ∧ forallb (λ t,
      number_eqb (Spec64.to_number (Spec64.partialScore (t - 2) t 0 t))
                 (partialScore (t - 2) t 0 t))
      (seq 2 255) = true
  ∧ forallb (λ t, forallb (λ a,
      number_eqb (Spec64.to_number (Spec64.share a t)) (share a t))
      (seq 0 (t + 3))) (seq 0 65) = true.
Proof. split; [|split; [|split]]; vm_compute; reflexivity. Qed.

(* ===================================================================== *)
(** ** Arithmetic of the score *)
(* ===================================================================== *)

Section ScoreArithmetic.

Local Open Scope Q_scope.

(** A rounded result of moderate size is finite. *)
Lemma rounded_fin (x lo hi : Q) :
  lo <= Binary64.round x <= hi ->
  - Binary64.pow2 1024 < lo -> hi < Binary64.pow2 1024 ->
  Number.rounded x = Number.Fin (Binary64.round x).
Proof.
  intros [Hlo Hhi] Hlo' Hhi'. unfold Number.rounded. cbv zeta.
  destruct (Qle_bool _ _) eqn:Hover; [|done].
  apply Qle_bool_iff in Hover. revert Hover.
  apply Qabs_case; intros _ Hover; lra.
Qed.

Lemma inject_nat_nonneg (n : nat) : 0 <= inject_Z (Z.of_nat n).
Proof. unfold Qle; simpl; lia. Qed.

Lemma inject_nat_pos (n : nat) : (0 < n)%nat → 0 < inject_Z (Z.of_nat n).
Proof. intros Hn. unfold Qlt; simpl; lia. Qed.

Lemma Qeq_bool_inject_nat (n : nat) :
  (0 < n)%nat → Qeq_bool (inject_Z (Z.of_nat n)) 0 = false.
Proof.
  intros Hn. apply not_true_is_false. intros He.
  apply Qeq_bool_eq in He. revert He. unfold Qeq; simpl; lia.
Qed.

Lemma ratio_bounds (a t : nat) :
  (a ≤ t)%nat → (0 < t)%nat →
  0 <= inject_Z (Z.of_nat a) / inject_Z (Z.of_nat t) <= 1.
Proof.
  intros Hat Ht. split.
  - apply Qle_shift_div_l; [by apply inject_nat_pos|].
    rewrite Qmult_0_l. apply inject_nat_nonneg.
  - apply Qle_shift_div_r; [by apply inject_nat_pos|].
    rewrite Qmult_1_l, <- Zle_Qle. lia.
Qed.

Lemma ratio_mono (a b t : nat) :
  (a ≤ b)%nat → (0 < t)%nat →
  inject_Z (Z.of_nat a) / inject_Z (Z.of_nat t)
  <= inject_Z (Z.of_nat b) / inject_Z (Z.of_nat t).
Proof.
  intros Hab Ht. apply Qmult_le_compat_r.
  - rewrite <- Zle_Qle. lia.
  - apply Qinv_le_0_compat, Qlt_le_weak. by apply inject_nat_pos.
Qed.

(** A ratio of two counts, the divisor not zero: the rounded quotient, a
    number between 0 and 1. *)
Lemma div_of_nat (a t : nat) :
  (a ≤ t)%nat → (0 < t)%nat →
  (Number.of_nat a / Number.of_nat t)%js
  = Number.Fin
      (Binary64.round (inject_Z (Z.of_nat a) / inject_Z (Z.of_nat t)))
  ∧ 0 <= Binary64.round (inject_Z (Z.of_nat a) / inject_Z (Z.of_nat t)) <= 1.
Proof.
  intros Hat Ht.
  assert (0 <= Binary64.round (inject_Z (Z.of_nat a) / inject_Z (Z.of_nat t))
          <= 1) as Hr
    by (apply round_between; [by apply ratio_bounds|reflexivity..]).
  split; [|done].
  unfold Number.of_nat, Number.int, Number.div.
  rewrite Qeq_bool_inject_nat by done.
  apply (rounded_fin _ 0 1); [done|reflexivity..].
Qed.

(** Zero divided by zero. *)
Lemma div_zero_zero : (Number.of_nat 0 / Number.of_nat 0)%js = Number.NaN.
Proof. reflexivity. Qed.

(** A share between 0 and 1 times one of the weights 40, 60 and 100. *)
Lemma scale_share (r : Q) (c : Z) :
  0 <= r <= 1 ->
  (0 <= c)%Z ->
  Binary64.round (inject_Z c) = inject_Z c ->
  inject_Z c < Binary64.pow2 1024 ->
  (Number.Fin r * Number.int c)%js
  = Number.Fin (Binary64.round (r * inject_Z c))
  ∧ 0 <= Binary64.round (r * inject_Z c) <= inject_Z c.
Proof.
  intros Hr Hc Hround Hsmall.
  assert (0 <= inject_Z c) as Hc' by (change 0 with (inject_Z 0);
                                      by rewrite <- Zle_Qle).
  assert (0 <= r * inject_Z c <= inject_Z c) as Hrc.
  { split; [apply Qmult_le_0_compat; lra|].
    rewrite <- (Qmult_1_l (inject_Z c)) at 2.
    apply Qmult_le_compat_r; lra. }
  assert (0 <= Binary64.round (r * inject_Z c) <= inject_Z c) as Hb
    by (apply round_between; [done|reflexivity|done]).
  split; [|done]. unfold Number.int, Number.mul.
  apply (rounded_fin _ 0 (inject_Z c)); [done|reflexivity|done].
Qed.

(** The penalty for extra blocks is a finite number between 0 and 20. *)
Lemma extraPenalty_bounds (e : nat) :
  ∃ pen : Q,
    Number.min (Number.of_nat e * Number.int 5)%js (Number.int 20)
    = Number.Fin pen ∧ 0 <= pen <= 20.
Proof.
  unfold Number.of_nat, Number.int, Number.mul, Number.rounded. cbv zeta.
  assert (0 <= Binary64.round (inject_Z (Z.of_nat e) * inject_Z 5)) as Hr.
  { change 0 with (Binary64.round 0) at 1. apply round_mono.
    apply Qmult_le_0_compat; [apply inject_nat_nonneg|done]. }
  destruct (Qle_bool (Binary64.pow2 1024) _).
  - exists 20. split; [|lra]. unfold Number.negativeb.
    apply Qle_bool_iff in Hr. by rewrite Hr.
  - unfold Number.min, Number.leb.
    destruct (Qle_bool _ (inject_Z 20)) eqn:Hle.
    + apply Qle_bool_iff in Hle. eexists. split; [reflexivity|].
      change (inject_Z 20) with 20 in Hle. lra.
    + exists 20. split; [done|lra].
Qed.

Lemma max_zero_int (z : Z) :
  Number.max (Number.int 0) (Number.int z) = Number.int (Z.max 0 z).
Proof.
  unfold Number.max, Number.int, Number.leb.
  destruct (Qle_bool (inject_Z 0) (inject_Z z)) eqn:Hle.
  - apply Qle_bool_iff in Hle. rewrite <- Zle_Qle in Hle.
    by rewrite Z.max_r.
  - assert (¬ (0 ≤ z)%Z) as Hz.
    { intros Hz. rewrite Zle_Qle, <- Qle_bool_iff in Hz. congruence. }
    rewrite Z.max_l; [done|lia].
Qed.

Lemma Qfloor_half_le (x : Q) (n : Z) :
  x <= inject_Z n → (Qfloor (x + (1 # 2)) ≤ n)%Z.
Proof.
  intros Hx.
  assert (inject_Z (Qfloor (x + (1 # 2))) < inject_Z (n + 1)) as Hlt.
  { eapply Qle_lt_trans; [apply Qfloor_le|].
    rewrite inject_Z_plus. simpl (inject_Z 1).
    apply Qle_lt_trans with (inject_Z n + (1 # 2)).
    - by apply Qplus_le_l.
    - apply Qplus_lt_r. reflexivity. }
  rewrite <- Zlt_Qlt in Hlt. lia.
Qed.

Lemma Qfloor_half_lt (x : Q) (n : Z) :
  x + (1 # 2) < inject_Z n → (Qfloor (x + (1 # 2)) < n)%Z.
Proof.
  intros Hx. rewrite Zlt_Qlt.
  eapply Qle_lt_trans; [apply Qfloor_le|done].
Qed.

End ScoreArithmetic.

(* ===================================================================== *)
(** ** The sequence analysis *)
(* ===================================================================== *)

Section AnalysisFacts.

Variable this : ProofValidator.
Implicit Types userOrder : list string.

Ltac analysis_field :=
  unfold _analyzeSequence; destruct (foldl _ _ _); reflexivity.

Lemma analysis_totalBlocks userOrder :
  Analysis.totalBlocks (_analyzeSequence this userOrder)
  = length this.(solutionOrder).
Proof. analysis_field. Qed.

Lemma analysis_correctBlocks userOrder :
  Analysis.correctBlocks (_analyzeSequence this userOrder)
  = length (filter (λ id, id ∈ (list_to_set this.(solutionOrder) : gset string))
                   (elements (list_to_set userOrder : gset string))).
Proof. analysis_field. Qed.

Lemma analysis_extraBlocks userOrder :
  Analysis.extraBlocks (_analyzeSequence this userOrder)
  = length (filter (λ id, id ∉ (list_to_set this.(solutionOrder) : gset string))
                   (elements (list_to_set userOrder : gset string))).
Proof. analysis_field. Qed.

Lemma analysis_missingBlocks userOrder :
  Analysis.missingBlocks (_analyzeSequence this userOrder)
  = length (filter (λ id, id ∉ (list_to_set userOrder : gset string))
                   (elements (list_to_set this.(solutionOrder) : gset string))).
Proof. analysis_field. Qed.

Lemma analysis_isComplete userOrder :
  Analysis.isComplete (_analyzeSequence this userOrder)
  = bool_decide (length userOrder = length this.(solutionOrder))
    && bool_decide (Analysis.missingBlocks (_analyzeSequence this userOrder) = 0)
    && bool_decide (Analysis.extraBlocks (_analyzeSequence this userOrder) = 0).
Proof. analysis_field. Qed.

Lemma analysis_correctSequence userOrder :
  Analysis.correctSequence (_analyzeSequence this userOrder)
  = Analysis.isComplete (_analyzeSequence this userOrder)
    && _isCorrectSequence this userOrder 0 (length userOrder).
Proof. analysis_field. Qed.

Lemma analysis_correctlyPositioned userOrder :
  Analysis.correctlyPositioned (_analyzeSequence this userOrder)
  = fst (foldl (classify this userOrder) ([], [])
           (seq 0 (length userOrder `min` length this.(solutionOrder)))).
Proof. analysis_field. Qed.

(** The loop records a block as correctly positioned only at an index where
    the two orders agree. *)
Lemma classify_placed_count userOrder (indices : list nat) acc :
  length (fst (foldl (classify this userOrder) acc indices))
  ≤ length (fst acc)
    + length (filter (λ i, userOrder !! i = this.(solutionOrder) !! i) indices).
Proof.
  revert acc. induction indices as [|i indices IH]; intros [cp ip]; simpl.
  - lia.
  - etrans; [apply IH|]. rewrite filter_cons. unfold classify.
    destruct (userOrder !! i) as [u|] eqn:Hu,
             (this.(solutionOrder) !! i) as [s|] eqn:Hs;
      repeat case_bool_decide; repeat case_decide; simplify_eq/=;
      rewrite ?length_app; simpl; lia.
Qed.

Lemma placed_le_total userOrder :
  length (Analysis.correctlyPositioned (_analyzeSequence this userOrder))
  ≤ length this.(solutionOrder).
Proof.
  rewrite analysis_correctlyPositioned.
  etrans; [apply classify_placed_count|]. simpl.
  etrans; [apply length_filter|]. rewrite length_seq. lia.
Qed.

Lemma correctBlocks_le_total userOrder :
  Analysis.correctBlocks (_analyzeSequence this userOrder)
  ≤ length this.(solutionOrder).
Proof.
  rewrite analysis_correctBlocks. apply submseteq_length, NoDup_submseteq.
  - apply NoDup_filter, NoDup_elements.
  - intros id [Hid _]%list_elem_of_filter. by apply elem_of_list_to_set in Hid.
Qed.

End AnalysisFacts.

(* ===================================================================== *)
(** ** The score *)
(* ===================================================================== *)

Section ScoreFacts.

Local Open Scope Q_scope.

(** The score of an analysis that is not a correct sequence, over a
    non-empty canonical order: the parts are finite, and the score is the
    rounded, clamped value of the formula, each operation rounded to
    binary64. *)
Lemma calculateScore_value (result : Analysis.t) :
  Analysis.correctSequence result = false →
  (0 < Analysis.totalBlocks result)%nat →
  (length (Analysis.correctlyPositioned result)
   ≤ Analysis.totalBlocks result)%nat →
  (Analysis.correctBlocks result ≤ Analysis.totalBlocks result)%nat →
  ∃ pen : Q, 0 <= pen <= 20 ∧
    let position :=
      Binary64.round
        (Binary64.round
           (inject_Z (Z.of_nat (length (Analysis.correctlyPositioned result)))
            / inject_Z (Z.of_nat (Analysis.totalBlocks result)))
         * inject_Z 60) in
    let presence :=
      Binary64.round
        (Binary64.round
           (inject_Z (Z.of_nat (Analysis.correctBlocks result))
            / inject_Z (Z.of_nat (Analysis.totalBlocks result)))
         * inject_Z 40) in
    let raw := Binary64.round (Binary64.round (position + presence) + - pen) in
    0 <= position <= 60 ∧ 0 <= presence <= 40
    ∧ 0 <= Binary64.round (position + presence) <= 100
    ∧ -20 <= raw <= 100
    ∧ _calculateScore result
      = Number.int (Z.max 0 (Qfloor (raw + (1 # 2)))).
Proof.
  intros Hseq Htotal Hcp Hcb. unfold _calculateScore. rewrite Hseq.
  destruct (extraPenalty_bounds (Analysis.extraBlocks result))
    as (pen & -> & Hpen).
  exists pen. split; [done|]. cbv zeta.
  destruct (div_of_nat _ _ Hcp Htotal) as [-> Ha].
  destruct (div_of_nat _ _ Hcb Htotal) as [-> Hb].
  destruct (scale_share _ 60 Ha) as [-> Hp]; [done|reflexivity..|].
  destruct (scale_share _ 40 Hb) as [-> Hq]; [done|reflexivity..|].
  revert Hp Hq.
  generalize (Binary64.round
                (Binary64.round
                   (inject_Z (Z.of_nat (length (Analysis.correctlyPositioned result)))
                    / inject_Z (Z.of_nat (Analysis.totalBlocks result)))
                 * inject_Z 60)).
  generalize (Binary64.round
                (Binary64.round
                   (inject_Z (Z.of_nat (Analysis.correctBlocks result))
                    / inject_Z (Z.of_nat (Analysis.totalBlocks result)))
                 * inject_Z 40)).
  intros q p Hp Hq. change (inject_Z 60) with 60 in Hp.
  change (inject_Z 40) with 40 in Hq.
  assert (0 <= Binary64.round (p + q) <= 100) as Hs
    by (apply round_between; [lra|reflexivity..]).
  assert (-20 <= Binary64.round (Binary64.round (p + q) + - pen) <= 100) as Hd
    by (apply round_between; [lra|reflexivity..]).
  repeat split; try lra.
  cbn [Number.add Number.sub Number.opp].
  rewrite (rounded_fin (p + q) 0 100) by (done || reflexivity).
  cbn [Number.add Number.sub Number.opp].
  rewrite (rounded_fin _ (-20) 100) by (done || reflexivity).
  unfold Number.round. apply max_zero_int.
Qed.

Lemma calculateScore_range (result : Analysis.t) :
  (0 < Analysis.totalBlocks result)%nat →
  (length (Analysis.correctlyPositioned result)
   ≤ Analysis.totalBlocks result)%nat →
  (Analysis.correctBlocks result ≤ Analysis.totalBlocks result)%nat →
  Number.int_between 0 100 (_calculateScore result).
Proof.
  intros Htotal Hcp Hcb.
  destruct (Analysis.correctSequence result) eqn:Hseq.
  { exists 100%Z. unfold _calculateScore. rewrite Hseq. split; [done|lia]. }
  destruct (calculateScore_value result Hseq Htotal Hcp Hcb)
    as (pen & Hpen & _ & _ & _ & Hraw & ->).
  eexists; split; [reflexivity|]. split; [lia|].
  apply Z.max_lub; [lia|]. apply Qfloor_half_le.
  change (inject_Z 100) with 100. lra.
Qed.

End ScoreFacts.

(* ===================================================================== *)
(** ** The guards of validateProof *)
(* ===================================================================== *)

Lemma filter_is_nil {A} (P : A → Prop) `{!∀ x, Decision (P x)} (l : list A) :
  filter P l = [] ↔ Forall (λ x, ¬ P x) l.
Proof.
  induction l as [|x l IH]; [by rewrite filter_nil|].
  rewrite filter_cons, Forall_cons. case_decide; [|tauto].
  split; [done|]. tauto.
Qed.

Section GuardFacts.

Variable this : ProofValidator.
Implicit Types userOrder : list string.

Lemma validateBlockIds_invalidBlocks userOrder id :
  id ∈ BlockValidation.invalidBlocks (validateBlockIds this userOrder)
  ↔ id ∈ userOrder ∧ id ∉ blockIds this.(puzzle).
Proof.
  unfold validateBlockIds, blockIds; simpl.
  rewrite list_elem_of_filter, elem_of_list_to_set. tauto.
Qed.

Lemma validateBlockIds_isValid userOrder :
  BlockValidation.isValid (validateBlockIds this userOrder) = true
  ↔ Forall (λ id, id ∈ blockIds this.(puzzle)) userOrder.
Proof.
  unfold validateBlockIds, blockIds; simpl.
  rewrite bool_decide_eq_true, length_zero_iff_nil, filter_is_nil.
  apply Forall_iff. intros id. rewrite elem_of_list_to_set.
  destruct (decide (id ∈ Block.id <$> Puzzle.blocks this.(puzzle))); tauto.
Qed.

Lemma validateBlockIds_foreign userOrder id :
  id ∈ userOrder → id ∉ blockIds this.(puzzle) →
  BlockValidation.isValid (validateBlockIds this userOrder) = false.
Proof.
  intros Hin Hforeign. apply not_true_is_false.
  rewrite validateBlockIds_isValid, Forall_forall. naive_solver.
Qed.

Lemma isCorrectSequence_solution :
  _isCorrectSequence this this.(solutionOrder) 0 (length this.(solutionOrder))
  = true.
Proof.
  unfold _isCorrectSequence. apply forallb_forall. intros i Hi.
  apply list_elem_of_In in Hi. apply elem_of_seq in Hi.
  rewrite bool_decide_eq_false_2 by lia.
  by rewrite bool_decide_eq_false_2 by (intros Hneq; by apply Hneq).
Qed.

(** The canonical order itself is analysed as complete and correct. *)
Lemma analysis_solution :
  Analysis.isComplete (_analyzeSequence this this.(solutionOrder)) = true
  ∧ Analysis.correctSequence (_analyzeSequence this this.(solutionOrder)) = true.
Proof.
  rewrite analysis_correctSequence, analysis_isComplete,
    analysis_missingBlocks, analysis_extraBlocks, isCorrectSequence_solution.
  assert (filter (λ id, id ∉ (list_to_set this.(solutionOrder) : gset string))
            (elements (list_to_set this.(solutionOrder) : gset string)) = [])
    as ->.
  { apply filter_is_nil, Forall_forall. intros id Hid.
    apply elem_of_elements in Hid. tauto. }
  by rewrite !bool_decide_eq_true_2.
Qed.

(** A correct sequence scores 100 and needs no hint. *)
Lemma correctSequence_score_hints (result : Analysis.t) userOrder :
  Analysis.correctSequence result = true →
  _calculateScore result = Number.int 100
  ∧ _generateHints this result userOrder = [].
Proof.
  intros Hseq. unfold _calculateScore, _generateHints. by rewrite Hseq.
Qed.

(** On an order with a foreign id, [_generateHints] itself answers with the
    one error hint, unless the analysis is a correct sequence. *)
Lemma generateHints_foreign (result : Analysis.t) userOrder id :
  Analysis.correctSequence result = false →
  id ∈ userOrder → id ∉ blockIds this.(puzzle) →
  _generateHints this result userOrder = [errorHint].
Proof.
  intros Hseq Hin Hforeign. unfold _generateHints.
  by rewrite Hseq, (validateBlockIds_foreign _ id).
Qed.

End GuardFacts.

(* ===================================================================== *)
(** ** Results of validateProof: guards, canonical order, score range *)
(* ===================================================================== *)

(** C1 (as the code has it). A learner order with at least one id that is
    not in the fragment set of the puzzle gets the fixed mismatch result,
    however many valid ids it also holds: isCorrect = false, score 0, an
    empty hint list, the error text that names the puzzle as feedback, and
    details that report the mismatch with exactly the foreign ids of the
    order, in the order's own sequence. *)
Theorem foreign_id_mismatch_result (p : Puzzle.t) (userOrder : list string) :
  (∃ id, id ∈ userOrder ∧ id ∉ blockIds p) →
  validate p userOrder
  = {| Validation.isCorrect := false;
       Validation.score := Number.int 0;
       Validation.feedback :=
         "Error: Some blocks don't belong to the current puzzle "
         +:+ quote +:+ Puzzle.title p +:+ quote
         +:+ ". Please refresh the page.";
       Validation.details :=
         Details.Mismatch (length (Puzzle.solutionOrder p)) 0
                          (length userOrder)
                          (length (Puzzle.solutionOrder p))
                          (length userOrder)
                          true
                          (filter (λ id, id ∉ blockIds p) userOrder);
       Validation.hints := Some [] |}.
Proof.
  intros (id & Hin & Hforeign). unfold validate, validateProof.
  destruct userOrder as [|id0 userOrder]; [by apply elem_of_nil in Hin|].
  rewrite bool_decide_eq_false_2 by done.
  rewrite (validateBlockIds_foreign (constructor p) _ id) by done.
  cbn [negb]. cbv iota. f_equal. f_equal.
  unfold validateBlockIds. cbn [BlockValidation.invalidBlocks].
  apply list_filter_iff. intros id'. unfold blockIds.
  by rewrite elem_of_list_to_set.
Qed.

Lemma foreign_id_mismatch_result_witness :
  validate (abcd "A" "B" "C" "D") ["a"; "x"; "b"]
  = {| Validation.isCorrect := false;
       Validation.score := Number.int 0;
       Validation.feedback :=
         "Error: Some blocks don't belong to the current puzzle "
         +:+ quote +:+ Puzzle.title (abcd "A" "B" "C" "D") +:+ quote
         +:+ ". Please refresh the page.";
       Validation.details :=
         Details.Mismatch 4 0 3 4 3 true
           (filter (λ id, id ∉ blockIds (abcd "A" "B" "C" "D"))
                   ["a"; "x"; "b"]);
       Validation.hints := Some [] |}.
Proof.
  apply (foreign_id_mismatch_result (abcd "A" "B" "C" "D") ["a"; "x"; "b"]).
  exists "x". split; apply (bool_decide_unpack _); vm_compute; reflexivity.
Defined.

(** C1 (as stated, refuted). The order a, x, b against the puzzle a, b, c, d
    holds the foreign id x, and the hint list of its result is empty: it
    has no hint of kind error. *)
Lemma foreign_id_no_error_hint :
  "x" ∈ ["a"; "x"; "b"]
  ∧ ("x" ∉ blockIds (abcd "A" "B" "C" "D"))
  ∧ Validation.hints (validate (abcd "A" "B" "C" "D") ["a"; "x"; "b"])
    = Some []
  ∧ ∀ hs, Validation.hints (validate (abcd "A" "B" "C" "D") ["a"; "x"; "b"])
          = Some hs →
          filter (λ h, Hint.type h = "error") hs = [].
Proof.
  split; [|split]; [apply (bool_decide_unpack _); vm_compute; reflexivity..|].
  split; [reflexivity|]. intros hs [= <-]. reflexivity.
Qed.

(** C8. For every puzzle, the empty learner order gets score 0,
    isCorrect = false and the fixed prompt as feedback; the result is a
    value, no error is raised. *)
Theorem empty_order_prompt (p : Puzzle.t) :
  validate p []
  = {| Validation.isCorrect := false;
       Validation.score := Number.int 0;
       Validation.feedback :=
         "Please arrange the proof blocks to create a valid proof.";
       Validation.details :=
         Details.Counts (length (Puzzle.solutionOrder p)) 0 0
                        (length (Puzzle.solutionOrder p)) 0;
       Validation.hints := None |}.
Proof.
  unfold validate, validateProof.
  rewrite bool_decide_eq_true_2 by reflexivity. reflexivity.
Qed.

(** C7. For every well-formed puzzle, the canonical order is validated as
    correct, with score 100 and an empty hint list. *)
Theorem canonical_order_correct (p : Puzzle.t) :
  well_formed p →
  Validation.isCorrect (validate p (Puzzle.solutionOrder p)) = true
  ∧ Validation.score (validate p (Puzzle.solutionOrder p)) = Number.int 100
  ∧ Validation.hints (validate p (Puzzle.solutionOrder p)) = Some [].
Proof.
  intros (Hne & _ & Hids). unfold validate, validateProof.
  rewrite bool_decide_eq_false_2
    by (intros Hlen; by apply length_zero_iff_nil in Hlen).
  assert (BlockValidation.isValid
            (validateBlockIds (constructor p) (Puzzle.solutionOrder p)) = true)
    as ->.
  { apply validateBlockIds_isValid, Forall_forall. intros id. apply Hids. }
  simpl negb. cbv iota.
  destruct (analysis_solution (constructor p)) as [Hcomplete Hseq].
  change (constructor p).(solutionOrder) with (Puzzle.solutionOrder p) in *.
  destruct (correctSequence_score_hints (constructor p) _
              (Puzzle.solutionOrder p) Hseq) as [Hscore Hhints].
  simpl. by rewrite Hcomplete, Hseq, Hscore, Hhints.
Qed.

Lemma canonical_order_correct_witness :
  Validation.isCorrect (validate (abcd "A" "B" "C" "D") ["a"; "b"; "c"; "d"])
  = true
  ∧ Validation.score (validate (abcd "A" "B" "C" "D") ["a"; "b"; "c"; "d"])
    = Number.int 100
  ∧ Validation.hints (validate (abcd "A" "B" "C" "D") ["a"; "b"; "c"; "d"])
    = Some [].
Proof.
  apply (canonical_order_correct (abcd "A" "B" "C" "D")).
  split; [done|]. split.
  - apply (bool_decide_unpack _). vm_compute. reflexivity.
  - intros id. unfold blockIds. simpl. reflexivity.
Defined.

(** C9. For every well-formed puzzle and every learner order, the score of
    the result is an integer between 0 and 100. *)
Theorem score_range (p : Puzzle.t) (userOrder : list string) :
  well_formed p →
  Number.int_between 0 100 (Validation.score (validate p userOrder)).
Proof.
  intros (Hne & _). unfold validate, validateProof.
  case_bool_decide; [by exists 0%Z|].
  destruct (BlockValidation.isValid _); simpl; [|by exists 0%Z].
  apply calculateScore_range.
  - rewrite analysis_totalBlocks. simpl.
    destruct (Puzzle.solutionOrder p); [done|simpl; lia].
  - rewrite analysis_totalBlocks. apply placed_le_total.
  - rewrite analysis_totalBlocks. apply correctBlocks_le_total.
Qed.

Lemma score_range_witness :
  Number.int_between 0 100
    (Validation.score (validate (abcd "A" "B" "C" "D") ["a"; "c"; "b"; "d"])).
Proof.
  apply (score_range (abcd "A" "B" "C" "D") ["a"; "c"; "b"; "d"]).
  split; [done|]. split.
  - apply (bool_decide_unpack _). vm_compute. reflexivity.
  - intros id. unfold blockIds. simpl. reflexivity.
Defined.

(* ===================================================================== *)
(** ** Construction *)
(* ===================================================================== *)

(** The map built by the constructor answers an id with the last block of
    the catalogue that carries it. *)
Lemma blockMap_lookup (p : Puzzle.t) (id : string) :
  (constructor p).(blockMap) !! id
  = last (filter (λ block, Block.id block = id) (Puzzle.blocks p)).
Proof.
  simpl. induction (Puzzle.blocks p) as [|block blocks IH] using rev_ind.
  - done.
  - rewrite foldl_snoc, filter_app, filter_cons, filter_nil.
    case_decide as Hid.
    + subst id. by rewrite lookup_insert_eq, last_snoc.
    + by rewrite lookup_insert_ne, app_nil_r.
Qed.

(** C2 (as the code has it). Constructing a validator never fails: for
    every puzzle, also one that is empty, has duplicate canonical ids or is
    not a bijection, the constructor returns a validator that holds the
    puzzle, its canonical order and the map from id to block. *)
Theorem construction_never_fails (p : Puzzle.t) :
  ∃ v : ProofValidator,
    new_ProofValidator p = Returns v
    ∧ v.(puzzle) = p
    ∧ v.(solutionOrder) = Puzzle.solutionOrder p
    ∧ ∀ id, v.(blockMap) !! id
            = last (filter (λ block, Block.id block = id) (Puzzle.blocks p)).
Proof.
  exists (constructor p). repeat split. apply blockMap_lookup.
Qed.

(** C2 (as stated, refuted). The empty puzzle, a puzzle with a repeated
    canonical id and a puzzle whose canonical order misses a block are not
    well-formed, and for each of them the construction returns a validator
    instead of failing with InvalidPuzzleError. *)
Lemma malformed_puzzles_are_accepted :
  (¬ well_formed empty_puzzle
   ∧ new_ProofValidator empty_puzzle
     = Returns {| puzzle := empty_puzzle; solutionOrder := []; blockMap := ∅ |}
   ∧ new_ProofValidator empty_puzzle ≠ Throws "InvalidPuzzleError")
  ∧ (¬ well_formed repeated_step
     ∧ new_ProofValidator repeated_step = Returns (constructor repeated_step)
     ∧ new_ProofValidator repeated_step ≠ Throws "InvalidPuzzleError")
  ∧ (¬ well_formed no_steps
     ∧ new_ProofValidator no_steps = Returns (constructor no_steps)
     ∧ new_ProofValidator no_steps ≠ Throws "InvalidPuzzleError").
Proof.
  repeat split; try done.
  - by intros (Hne & _).
  - intros (_ & Hdup & _). revert Hdup. apply (bool_decide_unpack _).
    vm_compute. reflexivity.
  - by intros (Hne & _).
Qed.

(* ===================================================================== *)
(** ** Worked examples *)
(* ===================================================================== *)

(** C3. Against the canonical order a, b the learner order a, b, a is made
    of valid ids only and repeats one; it is scored 100 and is not correct:
    a score of 100 does not imply a correct solution. *)
Theorem full_score_without_correctness :
  Puzzle.solutionOrder ab = ["a"; "b"]
  ∧ Forall (λ id, id ∈ blockIds ab) ["a"; "b"; "a"]
  ∧ ¬ NoDup ["a"; "b"; "a"]
  ∧ Validation.score (validate ab ["a"; "b"; "a"]) = Number.int 100
  ∧ Validation.isCorrect (validate ab ["a"; "b"; "a"]) = false.
Proof.
  split; [reflexivity|]. split; [|split].
  - apply (bool_decide_unpack _). vm_compute. reflexivity.
  - apply (bool_decide_unpack _). vm_compute. reflexivity.
  - split; vm_compute; reflexivity.
Qed.

(** C5. Canonical order a, b, c, d and learner order a, c, b, d: a and d are
    the correctly positioned entries (indices 0 and 3), c and b the
    incorrectly positioned ones (index 1 expecting b, index 2 expecting c),
    the score is round((2/4)*60 + (4/4)*40 - 0) = 70, the order is not
    correct, and the first hint is a position hint that names position 2
    and carries the fragment b. *)
Theorem middle_swap_example (la lb lc ld : string) :
  ∃ result rest,
    Validation.details (validate (abcd la lb lc ld) ["a"; "c"; "b"; "d"])
    = Details.Sequence result
    ∧ Analysis.correctlyPositioned result
      = [Placed.mk "a" 0; Placed.mk "d" 3]
    ∧ Analysis.incorrectlyPositioned result
      = [Misplaced.mk "c" 1 "b"; Misplaced.mk "b" 2 "c"]
    ∧ Validation.score (validate (abcd la lb lc ld) ["a"; "c"; "b"; "d"])
      = Number.round (Number.of_nat 2 / Number.of_nat 4 * Number.int 60
                      + Number.of_nat 4 / Number.of_nat 4 * Number.int 40
                      - Number.int 0)%js
    ∧ Validation.score (validate (abcd la lb lc ld) ["a"; "c"; "b"; "d"])
      = Number.int 70
    ∧ Validation.isCorrect (validate (abcd la lb lc ld) ["a"; "c"; "b"; "d"])
      = false
    ∧ Validation.hints (validate (abcd la lb lc ld) ["a"; "c"; "b"; "d"])
      = Some (Hint.mk "position" "The block at position 2 should be:" lb
                      (Some 1) (Some "b") None :: rest).
Proof.
  exists (_analyzeSequence (constructor (abcd la lb lc ld))
            ["a"; "c"; "b"; "d"]), [].
  repeat split; vm_compute; reflexivity.
Qed.

(** C10. Canonical order a, b, c, d and learner order a, b: two blocks are
    missing, the order is not complete, a and b are correctly positioned
    (indices 0 and 1), the score is round((2/4)*60 + (2/4)*40) = 50. The
    next expected block is c, which the first hint, a missing hint, is
    already about: no next hint appears, and the remaining room is taken by
    a missing hint for the other id, d. *)
Theorem prefix_example (la lb lc ld : string) :
  ∃ result,
    Validation.details (validate (abcd la lb lc ld) ["a"; "b"])
    = Details.Sequence result
    ∧ Analysis.missingBlocks result = 2
    ∧ Analysis.isComplete result = false
    ∧ Analysis.correctlyPositioned result
      = [Placed.mk "a" 0; Placed.mk "b" 1]
    ∧ Validation.score (validate (abcd la lb lc ld) ["a"; "b"])
      = Number.round (Number.of_nat 2 / Number.of_nat 4 * Number.int 60
                      + Number.of_nat 2 / Number.of_nat 4 * Number.int 40)%js
    ∧ Validation.score (validate (abcd la lb lc ld) ["a"; "b"])
      = Number.int 50
    ∧ getNextExpectedBlock (constructor (abcd la lb lc ld)) ["a"; "b"]
      = Some "c"
    ∧ Validation.hints (validate (abcd la lb lc ld) ["a"; "b"])
      = Some [Hint.mk "missing" "You're missing this important step:" lc
                      None None (Some "c");
              Hint.mk "missing" "Consider this step:" ld
                      None None (Some "d")].
Proof.
  exists (_analyzeSequence (constructor (abcd la lb lc ld)) ["a"; "b"]).
  repeat split; vm_compute; reflexivity.
Qed.

(** Rounding is part of the result. Over 56 numbered steps, the order
    0, 2, 3, ..., 15, 1 has one entry in place and sixteen ids present:
    (1/56)*60 + (16/56)*40 is 12.5 in exact arithmetic and
    12.499999999999998 in binary64, so the score is 12. *)
Lemma score_just_below_half :
  length (Analysis.correctlyPositioned
            (_analyzeSequence (constructor (numbered 56))
               ("0" :: ((pretty : nat → string) <$> seq 2 14) ++ ["1"]))) = 1
  ∧ Analysis.correctBlocks
      (_analyzeSequence (constructor (numbered 56))
         ("0" :: ((pretty : nat → string) <$> seq 2 14) ++ ["1"])) = 16
  ∧ partialScore 1 16 0 56
    = Number.Fin (7036874417766399 # 562949953421312)
  ∧ Validation.score
      (validate (numbered 56)
         ("0" :: ((pretty : nat → string) <$> seq 2 14) ++ ["1"]))
    = Number.int 12.
Proof. split; [|split; [|split]]; vm_compute; reflexivity. Qed.

(** Eleven of twenty steps in place: the progress and the similarity are
    (11/20)*100, which is 55.00000000000001 in binary64. *)
Lemma progress_eleven_of_twenty :
  Partial.progress
    (validatePartial (constructor (numbered 20))
       ((pretty : nat → string) <$> seq 0 11))
  = Number.Fin (7740561859543041 # 140737488355328)
  ∧ ValidationUtils.calculateSimilarity
      ((pretty : nat → string) <$> seq 0 11)
      (Puzzle.solutionOrder (numbered 20))
    = Number.Fin (7740561859543041 # 140737488355328).
Proof. split; vm_compute; reflexivity. Qed.

(* ===================================================================== *)
(** ** Hint generation *)
(* ===================================================================== *)

Section HintFacts.

Variable this : ProofValidator.
Implicit Types (st : HintState) (userOrder : list string).

Lemma tracked_initial : hints_tracked ([], ∅).
Proof. split; [constructor|done]. Qed.

(** Pushing a hint about a fragment that is not yet in [usedBlocks]. *)
Lemma tracked_push (hints : list Hint.t) (usedBlocks : gset string)
    (h : Hint.t) (id : string) :
  hints_tracked (hints, usedBlocks) →
  Hint.fragmentId h = Some id →
  id ∉ usedBlocks →
  hints_tracked (hints ++ [h], {[id]} ∪ usedBlocks).
Proof.
  intros [Hnodup Hused] Hh Hfresh. split; simpl in *.
  - unfold hint_ids in *. rewrite fmap_app. apply NoDup_app.
    split; [done|]. split; [|apply NoDup_singleton].
    intros o Ho Ho'. apply list_elem_of_singleton in Ho'. subst o.
    simpl in Ho. rewrite Hh in Ho.
    apply list_elem_of_fmap in Ho as (h' & Hh' & Hin).
    rewrite Forall_forall in Hused.
    destruct (Hused h' Hin) as (id' & Hid' & Hin').
    rewrite Hid' in Hh'. by simplify_eq.
  - apply Forall_app. split.
    + eapply Forall_impl; [exact Hused|].
      intros h' (id' & Hid' & Hin'). exists id'. split; [done|set_solver].
    + apply Forall_singleton. exists id. split; [done|set_solver].
Qed.

Lemma positionHint_tracked (result : Analysis.t) st :
  hints_tracked st → hints_tracked (positionHint this result st).
Proof.
  destruct st as [hints usedBlocks]. intros Hst. unfold positionHint.
  destruct (Analysis.incorrectlyPositioned result) as [|firstError ?]; [done|].
  destruct (_ !! _); [|done]. case_bool_decide; [|done].
  by apply (tracked_push _ _ _ (Misplaced.expectedBlockId firstError)).
Qed.

Lemma positionHint_length (result : Analysis.t) st :
  length (fst (positionHint this result st)) ≤ S (length (fst st)).
Proof.
  destruct st as [hints usedBlocks]. unfold positionHint.
  destruct (Analysis.incorrectlyPositioned result) as [|firstError ?];
    [simpl; lia|].
  destruct (_ !! _); [|simpl; lia]. case_bool_decide; [|simpl; lia].
  simpl. rewrite length_app. simpl. lia.
Qed.

Lemma firstMissingHint_tracked userOrder (ids : list string) st :
  hints_tracked st → hints_tracked (firstMissingHint this userOrder ids st).
Proof.
  destruct st as [hints usedBlocks]. intros Hst.
  induction ids as [|blockId rest IH]; simpl; [done|].
  case_bool_decide; [|done].
  destruct (bool_decide (blockId ∉ userOrder)); simpl; [|done].
  case_bool_decide; simpl; [|done].
  destruct (_ !! _); [|done].
  by apply (tracked_push _ _ _ blockId).
Qed.

Lemma firstMissingHint_length userOrder (ids : list string) st :
  length (fst st) ≤ 3 →
  length (fst (firstMissingHint this userOrder ids st)) ≤ 3.
Proof.
  destruct st as [hints usedBlocks]. intros Hlen.
  induction ids as [|blockId rest IH]; simpl; [done|].
  case_bool_decide; [|done].
  destruct (_ && _); [|done]. destruct (_ !! _); [|done].
  simpl. rewrite length_app. simpl. lia.
Qed.

Lemma missingHint_tracked (result : Analysis.t) userOrder st :
  hints_tracked st → hints_tracked (missingHint this result userOrder st).
Proof.
  intros Hst. unfold missingHint. destruct (_ && _); [|done].
  by apply firstMissingHint_tracked.
Qed.

Lemma missingHint_length (result : Analysis.t) userOrder st :
  length (fst st) ≤ 3 →
  length (fst (missingHint this result userOrder st)) ≤ 3.
Proof.
  intros Hlen. unfold missingHint. destruct (_ && _); [|done].
  by apply firstMissingHint_length.
Qed.

Lemma nextHint_tracked userOrder st :
  hints_tracked st → hints_tracked (nextHint this userOrder st).
Proof.
  destruct st as [hints usedBlocks]. intros Hst. unfold nextHint.
  destruct (_ && _); [|done].
  destruct (getNextExpectedBlock this userOrder) as [nextExpected|]; [|done].
  destruct (bool_decide (nextExpected ≠ EmptyString)); simpl; [|done].
  case_bool_decide; [|done]. destruct (_ !! _); [|done].
  by apply (tracked_push _ _ _ nextExpected).
Qed.

Lemma nextHint_length userOrder st :
  length (fst st) ≤ 3 → length (fst (nextHint this userOrder st)) ≤ 3.
Proof.
  destruct st as [hints usedBlocks]. intros Hlen. unfold nextHint.
  destruct (bool_decide (length userOrder < _)); simpl; [|done].
  case_bool_decide; [|done].
  destruct (getNextExpectedBlock this userOrder) as [nextExpected|]; [|done].
  destruct (_ && _); [|done]. destruct (_ !! _); [|done].
  simpl. rewrite length_app. simpl. lia.
Qed.

(** The last loop keeps the invariant when the ids it walks are distinct
    and none of them was suggested before. *)
Lemma moreMissingHints_tracked (missingIds : list string) st :
  NoDup missingIds →
  Forall (λ id, id ∉ snd st) missingIds →
  hints_tracked st → hints_tracked (moreMissingHints this missingIds st).
Proof.
  revert st. induction missingIds as [|missingId rest IH];
    intros [hints usedBlocks] Hnodup Hfresh Hst; simpl; [done|].
  apply NoDup_cons in Hnodup as [Hnotin Hnodup].
  apply Forall_cons in Hfresh as [Hid Hfresh]. simpl in *.
  case_bool_decide; [|done].
  destruct (_ !! _); [|by apply IH].
  apply IH; [done| |by apply (tracked_push _ _ _ missingId)].
  simpl. rewrite Forall_forall in Hfresh |- *.
  intros id Hin. specialize (Hfresh id Hin).
  assert (id ≠ missingId) by (by intros ->).
  rewrite elem_of_union, elem_of_singleton. tauto.
Qed.

Lemma moreMissingHints_length (missingIds : list string) st :
  length (fst st) ≤ 3 →
  length (fst (moreMissingHints this missingIds st)) ≤ 3.
Proof.
  revert st. induction missingIds as [|missingId rest IH];
    intros [hints usedBlocks] Hlen; simpl; [done|].
  case_bool_decide; [|done].
  destruct (_ !! _); [|by apply IH].
  apply IH. simpl in *. rewrite length_app. simpl. lia.
Qed.

Lemma fillHints_tracked (result : Analysis.t) userOrder st :
  NoDup this.(solutionOrder) →
  hints_tracked st → hints_tracked (fillHints this result userOrder st).
Proof.
  destruct st as [hints usedBlocks]. intros Hnodup Hst. unfold fillHints.
  destruct (_ && _); [|done].
  apply moreMissingHints_tracked; [by apply NoDup_filter| |done].
  apply Forall_forall. intros id Hin.
  apply list_elem_of_filter in Hin. simpl. tauto.
Qed.

Lemma fillHints_length (result : Analysis.t) userOrder st :
  length (fst st) ≤ 3 →
  length (fst (fillHints this result userOrder st)) ≤ 3.
Proof.
  destruct st as [hints usedBlocks]. intros Hlen. unfold fillHints.
  destruct (_ && _); [|done]. by apply moreMissingHints_length.
Qed.

(** At most three hints, whatever the puzzle. *)
Lemma generateHints_length (result : Analysis.t) userOrder :
  length (_generateHints this result userOrder) ≤ 3.
Proof.
  unfold _generateHints.
  destruct (Analysis.correctSequence result); [simpl; lia|].
  destruct (negb _); [simpl; lia|].
  apply fillHints_length, nextHint_length, missingHint_length.
  etrans; [apply positionHint_length|]. simpl. lia.
Qed.

(** Over a canonical order without duplicates, no two hints are about the
    same fragment. *)
Lemma generateHints_distinct (result : Analysis.t) userOrder :
  NoDup this.(solutionOrder) →
  NoDup (hint_ids (_generateHints this result userOrder)).
Proof.
  intros Hnodup. unfold _generateHints.
  destruct (Analysis.correctSequence result); [constructor|].
  destruct (negb _); [apply NoDup_singleton|].
  apply fillHints_tracked; [done|].
  apply nextHint_tracked, missingHint_tracked, positionHint_tracked,
    tracked_initial.
Qed.

End HintFacts.

(** The hint list of a result has at most three hints, whatever the
    puzzle. *)
Lemma validate_hints_length (p : Puzzle.t) (userOrder : list string)
    (hs : list Hint.t) :
  Validation.hints (validate p userOrder) = Some hs → length hs ≤ 3.
Proof.
  unfold validate, validateProof. case_bool_decide; [done|].
  destruct (negb _); simpl; intros [= <-]; [simpl; lia|].
  apply generateHints_length.
Qed.

(** Over a canonical order without duplicate ids, no two hints of a result
    are about the same fragment id. *)
Lemma validate_hints_distinct (p : Puzzle.t) (userOrder : list string)
    (hs : list Hint.t) :
  NoDup (Puzzle.solutionOrder p) →
  Validation.hints (validate p userOrder) = Some hs → NoDup (hint_ids hs).
Proof.
  intros Hnodup. unfold validate, validateProof. case_bool_decide; [done|].
  destruct (negb _); simpl; intros [= <-]; [constructor|].
  by apply generateHints_distinct.
Qed.

(** C6. For every well-formed puzzle and every learner order, the hint list
    of the result has at most three hints, and no two of them are about the
    same fragment id. *)
Theorem hints_capped_and_distinct (p : Puzzle.t) (userOrder : list string)
    (hs : list Hint.t) :
  well_formed p →
  Validation.hints (validate p userOrder) = Some hs →
  length hs ≤ 3 ∧ NoDup (hint_ids hs).
Proof.
  intros (_ & Hnodup & _) Hhs. split.
  - by apply (validate_hints_length p userOrder).
  - by apply (validate_hints_distinct p userOrder).
Qed.

Lemma hints_capped_and_distinct_witness :
  length [Hint.mk "missing" "You're missing this important step:" "C"
                  None None (Some "c");
          Hint.mk "missing" "Consider this step:" "D"
                  None None (Some "d")] ≤ 3
  ∧ NoDup (hint_ids
             [Hint.mk "missing" "You're missing this important step:" "C"
                      None None (Some "c");
              Hint.mk "missing" "Consider this step:" "D"
                      None None (Some "d")]).
Proof.
  apply (hints_capped_and_distinct (abcd "A" "B" "C" "D") ["a"; "b"]).
  - split; [done|]. split.
    + apply (bool_decide_unpack _). vm_compute. reflexivity.
    + intros id. unfold blockIds. simpl. reflexivity.
  - vm_compute. reflexivity.
Defined.

(* ===================================================================== *)
(** ** Exchanging two adjacent entries of the canonical order *)
(* ===================================================================== *)

Section SwapFacts.

Variable this : ProofValidator.
Implicit Types userOrder : list string.

(** One index where the orders differ makes the sequence check fail. *)
Lemma isCorrectSequence_differs userOrder (i : nat) :
  i < length userOrder →
  userOrder !! i ≠ this.(solutionOrder) !! i →
  _isCorrectSequence this userOrder 0 (length userOrder) = false.
Proof.
  intros Hi Hneq. apply not_true_is_false. unfold _isCorrectSequence.
  rewrite forallb_forall. intros Hall.
  specialize (Hall i). rewrite (bool_decide_eq_true_2 _ Hneq) in Hall.
  rewrite orb_true_r in Hall. simpl in Hall.
  discriminate Hall. apply in_seq. lia.
Qed.

Lemma swap_lookups (l1 l2 : list string) (x y : string) :
  (l1 ++ x :: y :: l2) !! length l1 = Some x
  ∧ (l1 ++ x :: y :: l2) !! S (length l1) = Some y.
Proof.
  split; [by apply list_lookup_middle|].
  rewrite (cons_middle x l1), (assoc_L (++)).
  apply list_lookup_middle. rewrite length_app. simpl. lia.
Qed.

(** After the exchange, at least two indices disagree with the canonical
    order. *)
Lemma swap_agreements (l1 l2 : list string) (x y : string) :
  x ≠ y →
  this.(solutionOrder) = l1 ++ x :: y :: l2 →
  length (filter (λ i, (l1 ++ y :: x :: l2) !! i = this.(solutionOrder) !! i)
                 (seq 0 (length this.(solutionOrder)))) + 2
  ≤ length this.(solutionOrder).
Proof.
  intros Hxy ->. rewrite length_app. simpl length.
  rewrite seq_app. simpl seq. rewrite filter_app, !filter_cons.
  destruct (swap_lookups l1 l2 x y) as [Hx Hy].
  destruct (swap_lookups l1 l2 y x) as [Hy' Hx'].
  rewrite Hx, Hy, Hx', Hy'.
  rewrite decide_False by congruence. rewrite decide_False by congruence.
  rewrite length_app.
  pose proof (length_filter
    (λ i, (l1 ++ y :: x :: l2) !! i = (l1 ++ x :: y :: l2) !! i)
    (seq 0 (length l1))) as H1.
  pose proof (length_filter
    (λ i, (l1 ++ y :: x :: l2) !! i = (l1 ++ x :: y :: l2) !! i)
    (seq (S (S (length l1))) (length l2))) as H2.
  rewrite length_seq in H1, H2. lia.
Qed.

Lemma swap_analysis (l1 l2 : list string) (x y : string) :
  x ≠ y →
  this.(solutionOrder) = l1 ++ x :: y :: l2 →
  Analysis.correctSequence
    (_analyzeSequence this (l1 ++ y :: x :: l2)) = false
  ∧ length (Analysis.correctlyPositioned
              (_analyzeSequence this (l1 ++ y :: x :: l2))) + 2
    ≤ length this.(solutionOrder).
Proof.
  intros Hxy Hs. split.
  - rewrite analysis_correctSequence.
    rewrite (isCorrectSequence_differs _ (length l1)).
    + apply andb_false_r.
    + rewrite length_app. simpl. lia.
    + rewrite Hs.
      destruct (swap_lookups l1 l2 x y) as [-> _].
      destruct (swap_lookups l1 l2 y x) as [-> _]. congruence.
  - rewrite analysis_correctlyPositioned.
    pose proof (classify_placed_count this (l1 ++ y :: x :: l2)
      (seq 0 (length (l1 ++ y :: x :: l2) `min` length this.(solutionOrder)))
      ([], [])) as Hcount.
    assert (length (l1 ++ y :: x :: l2) = length this.(solutionOrder)) as Hlen
      by (rewrite Hs, !length_app; reflexivity).
    rewrite Hlen, Nat.min_id in Hcount |- *. simpl in Hcount.
    pose proof (swap_agreements l1 l2 x y Hxy Hs). lia.
Qed.

End SwapFacts.

Section SwapScore.

Local Open Scope Q_scope.

(** The largest raw score of a canonical order of [t] entries, 2 <= t < 240,
    with two positions wrong stays below 99.5: checked for each [t]. *)
Lemma swap_caps (t : nat) :
  (2 ≤ t < 240)%nat →
  score_cap (inject_Z (Z.of_nat (t - 2)) / inject_Z (Z.of_nat t)) + (1 # 2)
  < 100.
Proof.
  intros Ht.
  assert (forallb
            (λ t, negb (Qle_bool 100
                          (score_cap (inject_Z (Z.of_nat (t - 2))
                                      / inject_Z (Z.of_nat t)) + (1 # 2))))
            (seq 2 238) = true) as Hall by (vm_compute; reflexivity).
  rewrite forallb_forall in Hall. specialize (Hall t).
  apply Qnot_le_lt. intros Hle. apply Qle_bool_iff in Hle.
  rewrite Hle in Hall. discriminate Hall. apply in_seq. lia.
Qed.

(** With at least two of fewer than 240 positions wrong, an analysis that
    is not a correct sequence scores below 100. *)
Lemma calculateScore_two_wrong (result : Analysis.t) :
  Analysis.correctSequence result = false →
  (length (Analysis.correctlyPositioned result) + 2
   ≤ Analysis.totalBlocks result)%nat →
  (Analysis.correctBlocks result ≤ Analysis.totalBlocks result)%nat →
  (Analysis.totalBlocks result < 240)%nat →
  Number.below 100 (_calculateScore result).
Proof.
  intros Hseq Hcp Hcb Hsmall.
  assert (0 < Analysis.totalBlocks result)%nat as Htotal by lia.
  assert (length (Analysis.correctlyPositioned result)
          ≤ Analysis.totalBlocks result)%nat as Hcp' by lia.
  destruct (calculateScore_value result Hseq Htotal Hcp' Hcb)
    as (pen & Hpen & _ & Hq & _ & _ & ->).
  eexists; split; [reflexivity|].
  apply Z.max_lub_lt; [lia|]. apply Qfloor_half_lt.
  eapply Qle_lt_trans;
    [|apply (swap_caps (Analysis.totalBlocks result)); lia].
  apply Qplus_le_l. unfold score_cap.
  assert (length (Analysis.correctlyPositioned result)
          ≤ Analysis.totalBlocks result - 2)%nat as Hshort by lia.
  pose proof (round_mono _ _ (ratio_mono _ _ _ Hshort Htotal)) as Ha.
  revert Ha Hq.
  generalize (Binary64.round
                (inject_Z (Z.of_nat (length (Analysis.correctlyPositioned result)))
                 / inject_Z (Z.of_nat (Analysis.totalBlocks result)))).
  generalize (Binary64.round
                (inject_Z (Z.of_nat (Analysis.totalBlocks result - 2))
                 / inject_Z (Z.of_nat (Analysis.totalBlocks result)))).
  generalize (Binary64.round
                (Binary64.round
                   (inject_Z (Z.of_nat (Analysis.correctBlocks result))
                    / inject_Z (Z.of_nat (Analysis.totalBlocks result)))
                 * inject_Z 40)).
  intros q a' a Ha Hq. change (inject_Z 60) with 60.
  change (inject_Z 40) with 40 in Hq.
  assert (Binary64.round (a * 60) <= Binary64.round (a' * 60)) as Hp
    by (apply round_mono; lra).
  assert (Binary64.round (Binary64.round (a * 60) + q)
          <= Binary64.round (Binary64.round (a' * 60) + 40)) as Hs
    by (apply round_mono; lra).
  apply round_mono. lra.
Qed.

End SwapScore.

(** C4 (as the code has it). For every puzzle and every learner order
    obtained from its canonical order by exchanging two adjacent, distinct
    entries, the result is not correct; when the canonical order has fewer
    than 240 entries, the score is strictly less than 100. *)
Theorem adjacent_swap_result (p : Puzzle.t) (userOrder : list string) :
  adjacent_swap (Puzzle.solutionOrder p) userOrder →
  Validation.isCorrect (validate p userOrder) = false
  ∧ (length (Puzzle.solutionOrder p) < 240 →
     Number.below 100 (Validation.score (validate p userOrder))).
Proof.
  intros (l1 & x & y & l2 & Hxy & Hs & ->). unfold validate, validateProof.
  rewrite bool_decide_eq_false_2
    by (rewrite length_app; simpl; lia).
  destruct (negb _); simpl.
  { split; [done|]. intros _. exists 0%Z. split; [done|lia]. }
  destruct (swap_analysis (constructor p) l1 l2 x y Hxy Hs) as [Hseq Hcp].
  split; [by rewrite Hseq, andb_false_r|].
  intros Hsmall. apply calculateScore_two_wrong; [done|..].
  - by rewrite analysis_totalBlocks.
  - rewrite analysis_totalBlocks. apply correctBlocks_le_total.
  - by rewrite analysis_totalBlocks.
Qed.

Lemma adjacent_swap_result_witness :
  Validation.isCorrect
    (validate (abcd "A" "B" "C" "D") ["a"; "c"; "b"; "d"]) = false
  ∧ Number.below 100
      (Validation.score
         (validate (abcd "A" "B" "C" "D") ["a"; "c"; "b"; "d"])).
Proof.
  destruct (adjacent_swap_result (abcd "A" "B" "C" "D")
              ["a"; "c"; "b"; "d"]) as [Hwrong Hbelow].
  - exists ["a"], "b", "c", ["d"]. by repeat split.
  - split; [exact Hwrong|]. apply Hbelow. simpl. lia.
Defined.

(** C4 (as stated, refuted). In the puzzle of 256 numbered steps, exchanging
    the first two entries of the canonical order gives the score
    round((254/256)*60 + (256/256)*40) = round(99.53125) = 100, which is not
    strictly less than 100. *)
Lemma large_puzzle_swap_scores_100 :
  adjacent_swap (Puzzle.solutionOrder (numbered 256)) (numbered_swapped 256)
  ∧ Validation.score (validate (numbered 256) (numbered_swapped 256))
    = Number.int 100
  ∧ ¬ Number.below 100
        (Validation.score (validate (numbered 256) (numbered_swapped 256))).
Proof.
  assert (Validation.score (validate (numbered 256) (numbered_swapped 256))
          = Number.int 100) as Hscore by (vm_compute; reflexivity).
  split; [|split; [exact Hscore|]].
  - exists [], "0", "1", ((pretty : nat → string) <$> seq 2 254).
    split; [done|]. split; vm_compute; reflexivity.
  - rewrite Hscore. intros (z & Hz & Hlt).
    injection Hz as Hz. lia.
Qed.

(* ===================================================================== *)
(** ** When a result is correct *)
(* ===================================================================== *)

Lemma take_eq_lookups {A} (n : nat) (l1 l2 : list A) :
  take n l1 = take n l2 ↔ ∀ i, i < n → l1 !! i = l2 !! i.
Proof.
  split.
  - intros Htake i Hi.
    rewrite <- (lookup_take_lt l1 n i), <- (lookup_take_lt l2 n i) by done.
    by rewrite Htake.
  - intros Hlookup. apply list_eq. intros i. rewrite !lookup_take.
    case_decide; auto.
Qed.

Section CorrectFacts.

Variable this : ProofValidator.
Implicit Types userOrder : list string.

(** The sequence check over a whole order says that the order is a prefix
    of the canonical order. *)
Lemma isCorrectSequence_prefix userOrder :
  _isCorrectSequence this userOrder 0 (length userOrder) = true
  ↔ userOrder `prefix_of` this.(solutionOrder).
Proof.
  unfold _isCorrectSequence. rewrite forallb_forall, Nat.sub_0_r. split.
  - intros Hall.
    assert (∀ i, i < length userOrder →
                 userOrder !! i = this.(solutionOrder) !! i) as Hagree.
    { intros i Hi. specialize (Hall i).
      rewrite negb_true_iff, orb_false_iff, !bool_decide_eq_false in Hall.
      destruct Hall as [_ Hall]; [apply in_seq; lia|].
      by destruct (decide (userOrder !! i = this.(solutionOrder) !! i)). }
    apply take_eq_lookups in Hagree. rewrite firstn_all in Hagree.
    rewrite Hagree. apply prefix_take.
  - intros [k Hk] i Hi. apply in_seq in Hi.
    rewrite negb_true_iff, orb_false_iff, !bool_decide_eq_false, Hk.
    rewrite length_app, lookup_app_l by lia. split; [lia|]. by intros Hneq.
Qed.

(** The analysis calls an order a correct sequence exactly when it is the
    canonical order. *)
Lemma correctSequence_iff userOrder :
  Analysis.correctSequence (_analyzeSequence this userOrder) = true
  ↔ userOrder = this.(solutionOrder).
Proof.
  split.
  - rewrite analysis_correctSequence, analysis_isComplete.
    rewrite !andb_true_iff, bool_decide_eq_true, isCorrectSequence_prefix.
    intros [[[Hlen _] _] Hprefix]. apply prefix_length_eq; [done|lia].
  - intros ->. apply analysis_solution.
Qed.

Lemma isCorrect_inv userOrder :
  Validation.isCorrect (validateProof this userOrder) = true →
  userOrder ≠ []
  ∧ BlockValidation.isValid (validateBlockIds this userOrder) = true
  ∧ Analysis.correctSequence (_analyzeSequence this userOrder) = true.
Proof.
  unfold validateProof. case_bool_decide as Hlen; [done|].
  destruct (BlockValidation.isValid _); simpl; [|done].
  rewrite andb_true_iff. intros [_ Hseq]. repeat split; [|done].
  by intros ->.
Qed.

End CorrectFacts.

(** X1. A result is correct exactly when the learner order is the canonical
    order, is not empty and holds only ids of the catalogue. *)
Theorem isCorrect_iff_canonical (p : Puzzle.t) (userOrder : list string) :
  Validation.isCorrect (validate p userOrder) = true
  ↔ userOrder ≠ []
    ∧ Forall (λ id, id ∈ blockIds p) userOrder
    ∧ userOrder = Puzzle.solutionOrder p.
Proof.
  split.
  - intros (Hne & Hvalid & Hseq)%isCorrect_inv.
    apply validateBlockIds_isValid in Hvalid.
    by apply correctSequence_iff in Hseq.
  - intros (Hne & Hvalid & ->). unfold validate, validateProof.
    rewrite bool_decide_eq_false_2
      by (intros Hlen; by apply length_zero_iff_nil in Hlen).
    apply (validateBlockIds_isValid (constructor p)) in Hvalid.
    rewrite Hvalid. simpl.
    destruct (analysis_solution (constructor p)) as [Hcomplete Hseq].
    simpl in Hcomplete, Hseq. by rewrite Hcomplete, Hseq.
Qed.

(** X2. A correct result has score 100, no hints and the congratulation as
    feedback. *)
Theorem correct_result_is_full (p : Puzzle.t) (userOrder : list string) :
  Validation.isCorrect (validate p userOrder) = true →
  Validation.score (validate p userOrder) = Number.int 100
  ∧ Validation.hints (validate p userOrder) = Some []
  ∧ Validation.feedback (validate p userOrder)
    = "🎉 Excellent! Your proof is completely correct!".
Proof.
  intros (Hne & Hvalid & Hseq)%isCorrect_inv.
  unfold validate, validateProof.
  rewrite bool_decide_eq_false_2
    by (intros Hlen; by apply length_zero_iff_nil in Hlen).
  rewrite Hvalid. simpl.
  unfold _calculateScore, _generateHints, _generateFeedback.
  by rewrite Hseq.
Qed.

Lemma correct_result_is_full_witness :
  Validation.score (validate ab ["a"; "b"]) = Number.int 100
  ∧ Validation.hints (validate ab ["a"; "b"]) = Some []
  ∧ Validation.feedback (validate ab ["a"; "b"])
    = "🎉 Excellent! Your proof is completely correct!".
Proof.
  apply (correct_result_is_full ab ["a"; "b"]). vm_compute. reflexivity.
Defined.

(* ===================================================================== *)
(** ** What the analysis counts *)
(* ===================================================================== *)

Section CountFacts.

Variable this : ProofValidator.
Implicit Types userOrder : list string.

Ltac analysis_field :=
  unfold _analyzeSequence; destruct (foldl _ _ _); reflexivity.

Lemma analysis_incorrectlyPositioned userOrder :
  Analysis.incorrectlyPositioned (_analyzeSequence this userOrder)
  = snd (foldl (classify this userOrder) ([], [])
           (seq 0 (length userOrder `min` length this.(solutionOrder)))).
Proof. analysis_field. Qed.

Lemma analysis_duplicates userOrder :
  Analysis.duplicates (_analyzeSequence this userOrder)
  = _findDuplicates userOrder.
Proof. analysis_field. Qed.

(** The classification loop over indices that are in range of both orders:
    every index lands in exactly one of the two lists, with the ids that
    stand there. *)
Lemma classify_fold_spec userOrder (indices : list nat) acc :
  Forall (λ i, i < length userOrder ∧ i < length this.(solutionOrder))
         indices →
  let r := foldl (classify this userOrder) acc indices in
  length (fst r)
  = length (fst acc)
    + length (filter (λ i, userOrder !! i = this.(solutionOrder) !! i) indices)
  ∧ length (fst r) + length (snd r)
    = length (fst acc) + length (snd acc) + length indices
  ∧ (∀ e, e ∈ fst r →
          e ∈ fst acc
          ∨ userOrder !! Placed.position e = Some (Placed.blockId e)
            ∧ this.(solutionOrder) !! Placed.position e
              = Some (Placed.blockId e))
  ∧ (∀ e, e ∈ snd r →
          e ∈ snd acc
          ∨ userOrder !! Misplaced.position e = Some (Misplaced.blockId e)
            ∧ this.(solutionOrder) !! Misplaced.position e
              = Some (Misplaced.expectedBlockId e)
            ∧ Misplaced.blockId e ≠ Misplaced.expectedBlockId e).
Proof.
  revert acc. induction indices as [|i indices IH]; intros [cp ip] Hrange.
  { simpl. repeat split; auto; lia. }
  apply Forall_cons in Hrange as [[Hu Hs] Hrange].
  apply lookup_lt_is_Some in Hu as [u Hu].
  apply lookup_lt_is_Some in Hs as [s Hs].
  cbn zeta. simpl foldl.
  specialize (IH (classify this userOrder (cp, ip) i) Hrange).
  cbn zeta in IH. destruct IH as (IH1 & IH2 & IH3 & IH4).
  rewrite filter_cons, Hu, Hs. unfold classify in *.
  rewrite Hu, Hs in *.
  destruct (bool_decide (u = s)) eqn:Heq.
  - apply bool_decide_eq_true in Heq. subst s.
    rewrite decide_True by done. simpl in *. rewrite length_app in *.
    simpl in *. repeat split; [lia|lia| |done].
    intros e He. destruct (IH3 e He) as [Hin|]; [|by right].
    apply elem_of_app in Hin as [|Hin]; [by left|].
    apply list_elem_of_singleton in Hin. subst e. by right.
  - apply bool_decide_eq_false in Heq.
    rewrite decide_False by congruence. simpl in *. rewrite length_app in *.
    simpl in *. repeat split; [lia|lia|done|].
    intros e He. destruct (IH4 e He) as [Hin|]; [|by right].
    apply elem_of_app in Hin as [|Hin]; [by left|].
    apply list_elem_of_singleton in Hin. subst e. by right.
Qed.

(** The positions the loop records, in the order of the visit: the indices
    at which the two orders agree go to the first list, the others to the
    second. *)
Lemma classify_fold_positions userOrder (indices : list nat) acc :
  Forall (λ i, i < length userOrder ∧ i < length this.(solutionOrder))
         indices →
  let r := foldl (classify this userOrder) acc indices in
  Placed.position <$> fst r
  = (Placed.position <$> fst acc)
    ++ filter (λ i, userOrder !! i = this.(solutionOrder) !! i) indices
  ∧ Misplaced.position <$> snd r
    = (Misplaced.position <$> snd acc)
      ++ filter (λ i, userOrder !! i ≠ this.(solutionOrder) !! i) indices.
Proof.
  revert acc. induction indices as [|i indices IH]; intros [cp ip] Hrange.
  { simpl. by rewrite !app_nil_r. }
  apply Forall_cons in Hrange as [[Hu Hs] Hrange].
  apply lookup_lt_is_Some in Hu as [u Hu].
  apply lookup_lt_is_Some in Hs as [s Hs].
  cbn zeta. simpl foldl.
  specialize (IH (classify this userOrder (cp, ip) i) Hrange).
  cbn zeta in IH. destruct IH as [IH1 IH2].
  rewrite !filter_cons, Hu, Hs. unfold classify in *.
  rewrite Hu, Hs in *.
  destruct (bool_decide (u = s)) eqn:Heq.
  - apply bool_decide_eq_true in Heq. subst s.
    rewrite decide_True by done.
    rewrite decide_False by (intros Hneq; by apply Hneq).
    rewrite IH1, IH2. cbn [fst snd]. rewrite fmap_app.
    cbn [fmap list_fmap Placed.position].
    by rewrite <- (assoc_L (++)).
  - apply bool_decide_eq_false in Heq.
    rewrite decide_False by congruence. rewrite decide_True by congruence.
    rewrite IH1, IH2. cbn [fst snd]. rewrite fmap_app.
    cbn [fmap list_fmap Misplaced.position].
    by rewrite <- (assoc_L (++)).
Qed.

Lemma classify_range userOrder :
  Forall (λ i, i < length userOrder ∧ i < length this.(solutionOrder))
         (seq 0 (length userOrder `min` length this.(solutionOrder))).
Proof. apply Forall_forall. intros i Hi%elem_of_seq. lia. Qed.

(** The number of correctly positioned entries is the number of indices at
    which the two orders agree. *)
Lemma placed_count userOrder :
  length (Analysis.correctlyPositioned (_analyzeSequence this userOrder))
  = length (filter (λ i, userOrder !! i = this.(solutionOrder) !! i)
              (seq 0 (length userOrder `min` length this.(solutionOrder)))).
Proof.
  rewrite analysis_correctlyPositioned.
  by destruct (classify_fold_spec userOrder _ ([], [])
                 (classify_range userOrder)) as (-> & _).
Qed.

(** The two counts over the distinct ids of an order. *)
Lemma filter_complement_length {A} (P : A → Prop) `{!∀ x, Decision (P x)}
    (l : list A) :
  length (filter P l) + length (filter (λ x, ¬ P x) l) = length l.
Proof.
  rewrite <- length_app. apply Permutation_length, filter_app_complement.
Qed.

Lemma common_ids_length userOrder :
  length (filter (λ id, id ∈ (list_to_set this.(solutionOrder) : gset string))
                 (elements (list_to_set userOrder : gset string)))
  = length (filter (λ id, id ∈ (list_to_set userOrder : gset string))
                   (elements (list_to_set this.(solutionOrder) : gset string))).
Proof.
  apply Permutation_length, NoDup_Permutation;
    [apply NoDup_filter, NoDup_elements..|].
  intros id. rewrite !list_elem_of_filter, !elem_of_elements. tauto.
Qed.

End CountFacts.

(** X3. The analysis classifies every compared position exactly once. The
    positions recorded with the correctly positioned entries are the
    indices below the length of the shorter order at which the two orders
    agree, in increasing order; those recorded with the incorrectly
    positioned entries are the other indices below that length, in
    increasing order; so the recorded positions together are 0, 1, ... up to
    that length, each once, and the two lists together have that many
    entries. A correctly positioned entry records the id both orders hold
    at its position, an incorrectly positioned one the id of the learner
    order and the different, expected id of the canonical order. *)
Theorem classification_partition (this : ProofValidator)
    (userOrder : list string) :
  Placed.position
    <$> Analysis.correctlyPositioned (_analyzeSequence this userOrder)
  = filter (λ i, userOrder !! i = this.(solutionOrder) !! i)
           (seq 0 (length userOrder `min` length this.(solutionOrder)))
  ∧ Misplaced.position
      <$> Analysis.incorrectlyPositioned (_analyzeSequence this userOrder)
    = filter (λ i, userOrder !! i ≠ this.(solutionOrder) !! i)
             (seq 0 (length userOrder `min` length this.(solutionOrder)))
  ∧ (Placed.position
       <$> Analysis.correctlyPositioned (_analyzeSequence this userOrder))
    ++ (Misplaced.position
          <$> Analysis.incorrectlyPositioned (_analyzeSequence this userOrder))
    ≡ₚ seq 0 (length userOrder `min` length this.(solutionOrder))
  ∧ length (Analysis.correctlyPositioned (_analyzeSequence this userOrder))
    + length (Analysis.incorrectlyPositioned (_analyzeSequence this userOrder))
    = length userOrder `min` length this.(solutionOrder)
  ∧ Forall (λ e, userOrder !! Placed.position e = Some (Placed.blockId e)
                 ∧ this.(solutionOrder) !! Placed.position e
                   = Some (Placed.blockId e))
           (Analysis.correctlyPositioned (_analyzeSequence this userOrder))
  ∧ Forall (λ e, userOrder !! Misplaced.position e
                 = Some (Misplaced.blockId e)
                 ∧ this.(solutionOrder) !! Misplaced.position e
                   = Some (Misplaced.expectedBlockId e)
                 ∧ Misplaced.blockId e ≠ Misplaced.expectedBlockId e)
           (Analysis.incorrectlyPositioned (_analyzeSequence this userOrder)).
Proof.
  rewrite analysis_correctlyPositioned, analysis_incorrectlyPositioned.
  destruct (classify_fold_positions this userOrder _ ([], [])
              (classify_range this userOrder)) as [Hplaced Hmisplaced].
  destruct (classify_fold_spec this userOrder _ ([], [])
              (classify_range this userOrder)) as (_ & Hlen & Hcp & Hip).
  cbn zeta in Hplaced, Hmisplaced. simpl in Hplaced, Hmisplaced, Hlen.
  rewrite length_seq in Hlen.
  split; [exact Hplaced|]. split; [exact Hmisplaced|].
  split; [rewrite Hplaced, Hmisplaced; apply filter_app_complement|].
  split; [done|].
  split; apply Forall_forall; intros e He.
  - destruct (Hcp e He) as [Hin|]; [by apply elem_of_nil in Hin|done].
  - destruct (Hip e He) as [Hin|]; [by apply elem_of_nil in Hin|done].
Qed.

(** X4. The presence counts add up: the ids of the learner order that are
    in the canonical order and those that are not are together the
    distinct ids of the learner order; the common ids and the missing ones
    are together the distinct ids of the canonical order. *)
Theorem presence_accounting (this : ProofValidator) (userOrder : list string) :
  Analysis.correctBlocks (_analyzeSequence this userOrder)
  + Analysis.extraBlocks (_analyzeSequence this userOrder)
  = size (list_to_set userOrder : gset string)
  ∧ Analysis.correctBlocks (_analyzeSequence this userOrder)
    + Analysis.missingBlocks (_analyzeSequence this userOrder)
    = size (list_to_set this.(solutionOrder) : gset string).
Proof.
  rewrite analysis_correctBlocks, analysis_extraBlocks, analysis_missingBlocks.
  split.
  - apply (filter_complement_length
             (λ id, id ∈ (list_to_set this.(solutionOrder) : gset string))).
  - rewrite common_ids_length.
    apply (filter_complement_length
             (λ id, id ∈ (list_to_set userOrder : gset string))).
Qed.

(** X5. When every block of the catalogue occurs in the canonical order, an
    order that reaches the analysis has no extra blocks, so its score
    carries no penalty. *)
Theorem no_extra_after_guard (p : Puzzle.t) (userOrder : list string)
    (result : Analysis.t) :
  (∀ id, id ∈ blockIds p → id ∈ Puzzle.solutionOrder p) →
  Validation.details (validate p userOrder) = Details.Sequence result →
  Analysis.extraBlocks result = 0
  ∧ Number.min (Number.of_nat (Analysis.extraBlocks result) * Number.int 5)%js
               (Number.int 20)
    = Number.Fin 0.
Proof.
  intros Hcover. unfold validate, validateProof. case_bool_decide; [done|].
  destruct (BlockValidation.isValid _) eqn:Hvalid; simpl; [|done].
  intros [= <-].
  assert (Analysis.extraBlocks
            (_analyzeSequence (constructor p) userOrder) = 0) as ->.
  { rewrite analysis_extraBlocks. apply length_zero_iff_nil, filter_is_nil.
    apply Forall_forall. intros id Hid%elem_of_elements Hnot.
    apply elem_of_list_to_set in Hid. apply Hnot, elem_of_list_to_set, Hcover.
    apply validateBlockIds_isValid in Hvalid.
    rewrite Forall_forall in Hvalid. by apply Hvalid. }
  split; [done|]. vm_compute. reflexivity.
Qed.

Lemma no_extra_after_guard_witness :
  Analysis.extraBlocks
    (_analyzeSequence (constructor (abcd "A" "B" "C" "D")) ["a"; "c"]) = 0
  ∧ Number.min
      (Number.of_nat
         (Analysis.extraBlocks
            (_analyzeSequence (constructor (abcd "A" "B" "C" "D")) ["a"; "c"]))
       * Number.int 5)%js
      (Number.int 20)
    = Number.Fin 0.
Proof.
  apply (no_extra_after_guard (abcd "A" "B" "C" "D") ["a"; "c"]).
  - intros id Hid. exact Hid.
  - vm_compute. reflexivity.
Defined.

(** X6. Over a canonical order without duplicates, the analysis calls an
    order complete exactly when it is a permutation of the canonical
    order. *)
Theorem isComplete_iff_permutation (this : ProofValidator)
    (userOrder : list string) :
  NoDup this.(solutionOrder) →
  Analysis.isComplete (_analyzeSequence this userOrder) = true
  ↔ userOrder ≡ₚ this.(solutionOrder).
Proof.
  intros Hnodup.
  rewrite analysis_isComplete, analysis_missingBlocks, analysis_extraBlocks.
  rewrite !andb_true_iff, !bool_decide_eq_true, !length_zero_iff_nil,
    !filter_is_nil, !Forall_forall.
  split.
  - intros [[Hlen Hmissing] _]. symmetry.
    apply submseteq_length_Permutation; [|lia].
    apply NoDup_submseteq; [done|]. intros id Hid.
    specialize (Hmissing id). rewrite elem_of_elements in Hmissing.
    rewrite !elem_of_list_to_set in Hmissing.
    destruct (decide (id ∈ userOrder)); [done|]. by destruct Hmissing.
  - intros Hperm. split; [split|].
    + by apply Permutation_length.
    + intros id Hid%elem_of_elements Hnot.
      apply elem_of_list_to_set in Hid. apply Hnot, elem_of_list_to_set.
      by rewrite Hperm.
    + intros id Hid%elem_of_elements Hnot.
      apply elem_of_list_to_set in Hid. apply Hnot, elem_of_list_to_set.
      by rewrite <- Hperm.
Qed.

Lemma isComplete_iff_permutation_witness :
  Analysis.isComplete
    (_analyzeSequence (constructor (abcd "A" "B" "C" "D"))
                      ["d"; "c"; "b"; "a"]) = true
  ↔ ["d"; "c"; "b"; "a"] ≡ₚ ["a"; "b"; "c"; "d"].
Proof.
  apply (isComplete_iff_permutation (constructor (abcd "A" "B" "C" "D"))).
  apply (bool_decide_unpack _). vm_compute. reflexivity.
Defined.

(* ===================================================================== *)
(** ** Duplicates and feedback *)
(* ===================================================================== *)

Section DuplicateFacts.

Implicit Types userOrder : list string.

(** The state of the loop of [_findDuplicates] after a whole order. *)
Lemma findDuplicates_fold userOrder :
  let st := foldl
      (λ '(seen, duplicates) '(blockId, index),
         if bool_decide (blockId ∈ (seen : gset string))
         then (seen, duplicates ++ [Placed.mk blockId index])
         else ({[blockId]} ∪ seen, duplicates))
      (∅, []) (zip userOrder (seq 0 (length userOrder))) in
  fst st = list_to_set userOrder
  ∧ length (snd st) + size (fst st) = length userOrder
  ∧ Forall (λ e, userOrder !! Placed.position e = Some (Placed.blockId e)
                 ∧ Placed.blockId e ∈ take (Placed.position e) userOrder)
           (snd st)
  ∧ (snd st = [] ↔ NoDup userOrder).
Proof.
  induction userOrder as [|x userOrder IH] using rev_ind.
  { simpl. repeat split; try done. constructor. }
  cbn zeta in *. rewrite length_app. simpl length.
  rewrite seq_app, zip_with_app by (by rewrite length_seq).
  rewrite foldl_app. simpl zip_with. simpl foldl.
  destruct (foldl _ _ _) as [seen duplicates]. simpl in IH.
  destruct IH as (-> & Hsize & Hsound & Hnodup).
  assert (Forall
            (λ e, (userOrder ++ [x]) !! Placed.position e
                  = Some (Placed.blockId e)
                  ∧ Placed.blockId e
                    ∈ take (Placed.position e) (userOrder ++ [x]))
            duplicates) as Hsound'.
  { eapply Forall_impl; [exact Hsound|]. intros e [He1 He2].
    pose proof (lookup_lt_Some _ _ _ He1) as Hlt.
    rewrite lookup_app_l, take_app_le by lia. done. }
  rewrite list_to_set_app_L, NoDup_app. simpl list_to_set.
  rewrite union_empty_r_L.
  case_bool_decide as Hseen; simpl; rewrite elem_of_list_to_set in Hseen.
  - split.
    { symmetry. rewrite (comm_L (∪)). apply subseteq_union_1_L.
      by apply singleton_subseteq_l, elem_of_list_to_set. }
    split; [rewrite length_app; simpl; lia|].
    split.
    + apply Forall_app. split; [done|]. apply Forall_singleton. simpl.
      split; [by apply list_lookup_middle|]. by rewrite take_app_length.
    + split; [intros Hnil; by destruct duplicates|].
      intros (_ & Hfresh & _). destruct (Hfresh x Hseen). by left.
  - split; [apply (comm_L (∪))|].
    assert ({[x]} ## (list_to_set userOrder : gset string)) as Hdisjoint
      by (clear -Hseen; set_solver).
    split; [rewrite size_union, size_singleton by done; lia|].
    split; [done|]. rewrite Hnodup. split.
    + intros Hu. split; [done|]. split; [|apply NoDup_singleton].
      intros y Hy Hyx. apply list_elem_of_singleton in Hyx. by subst y.
    + by intros (Hu & _).
Qed.

End DuplicateFacts.

(** X7. The duplicates of an order: there are none exactly when the order
    repeats no id; together with the distinct ids they are as many as the
    order is long; each one records an index of the order, the id that
    stands there, and that id occurs before that index. *)
Theorem findDuplicates_spec (userOrder : list string) :
  (_findDuplicates userOrder = [] ↔ NoDup userOrder)
  ∧ length (_findDuplicates userOrder)
    + size (list_to_set userOrder : gset string)
    = length userOrder
  ∧ Forall (λ e, userOrder !! Placed.position e = Some (Placed.blockId e)
                 ∧ Placed.blockId e ∈ take (Placed.position e) userOrder)
           (_findDuplicates userOrder).
Proof.
  pose proof (findDuplicates_fold userOrder) as Hfold. cbn zeta in Hfold.
  unfold _findDuplicates. destruct Hfold as (Hseen & Hsize & Hsound & Hnodup).
  rewrite Hseen in Hsize. done.
Qed.

Section FeedbackFacts.

Variable this : ProofValidator.
Implicit Types userOrder : list string.

(** With any clause to report, the feedback is not the fallback text. *)
Lemma generateFeedback_not_fallback (result : Analysis.t) :
  Analysis.correctSequence result = true
  ∨ 0 < Analysis.missingBlocks result
  ∨ 0 < Analysis.extraBlocks result
  ∨ 0 < length (Analysis.duplicates result)
  ∨ 0 < length (Analysis.incorrectlyPositioned result)
  ∨ 0 < length (Analysis.correctlyPositioned result) →
  _generateFeedback result ≠ "Keep working on your proof!".
Proof.
  intros Hsome. unfold _generateFeedback.
  destruct (Analysis.correctSequence result); [discriminate|].
  repeat case_bool_decide; cbn -[pretty]; try discriminate; exfalso;
    rewrite ?length_app in *; simpl in *;
    intuition (discriminate || lia).
Qed.

(** The analysis of a non-empty order always has something to report: an
    extra block when the canonical order is empty, a classified position
    otherwise. *)
Lemma analysis_reports userOrder :
  userOrder ≠ [] →
  0 < Analysis.extraBlocks (_analyzeSequence this userOrder)
  ∨ 0 < length (Analysis.incorrectlyPositioned
                  (_analyzeSequence this userOrder))
  ∨ 0 < length (Analysis.correctlyPositioned
                  (_analyzeSequence this userOrder)).
Proof.
  intros Hne. destruct (decide (this.(solutionOrder) = [])) as [Hs|Hs].
  - left. rewrite analysis_extraBlocks, Hs.
    destruct userOrder as [|x userOrder]; [done|].
    destruct (length (filter _ _)) eqn:Hlen; [|lia].
    apply length_zero_iff_nil, filter_is_nil in Hlen.
    rewrite Forall_forall in Hlen. destruct (Hlen x).
    + apply elem_of_elements, elem_of_list_to_set. by left.
    + simpl. apply not_elem_of_empty.
  - right.
    rewrite analysis_correctlyPositioned, analysis_incorrectlyPositioned.
    destruct (classify_fold_spec this userOrder _ ([], [])
                (classify_range this userOrder)) as (_ & Hlen & _).
    simpl in Hlen. rewrite length_seq in Hlen.
    assert (0 < length userOrder) by (destruct userOrder; [done|simpl; lia]).
    assert (0 < length this.(solutionOrder))
      by (destruct this.(solutionOrder); [done|simpl; lia]).
    lia.
Qed.

End FeedbackFacts.

(** X8. The fallback text "Keep working on your proof!" is never the
    feedback of validateProof: a non-empty order always has a clause to
    report, and the two guards have texts of their own. *)
Theorem feedback_never_fallback (this : ProofValidator)
    (userOrder : list string) :
  Validation.feedback (validateProof this userOrder)
  ≠ "Keep working on your proof!".
Proof.
  unfold validateProof. case_bool_decide as Hlen; [discriminate|].
  destruct (BlockValidation.isValid _); simpl; [|discriminate].
  apply generateFeedback_not_fallback.
  destruct (analysis_reports this userOrder) as [Hr|[Hr|Hr]]; [|tauto..].
  intros ->. by apply Hlen.
Qed.

(* ===================================================================== *)
(** ** Prefixes: the next expected block, partial validation, placement *)
(* ===================================================================== *)

(** [find] over a range of indices returns the first one that passes. *)
Lemma find_seq_first (f : nat → bool) (k m : nat) :
  match find f (seq k m) with
  | Some i => k ≤ i < k + m ∧ f i = true ∧ ∀ j, k ≤ j < i → f j = false
  | None => ∀ j, k ≤ j < k + m → f j = false
  end.
Proof.
  revert k. induction m as [|m IH]; intros k; simpl; [lia|].
  destruct (f k) eqn:Hk.
  - split; [lia|]. split; [done|]. lia.
  - specialize (IH (S k)). destruct (find f (seq (S k) m)) as [i|].
    + destruct IH as (Hi & Hfi & Hfirst). split; [lia|]. split; [done|].
      intros j Hj. destruct (decide (j = k)) as [->|]; [done|].
      apply Hfirst. lia.
    + intros j Hj. destruct (decide (j = k)) as [->|]; [done|].
      apply IH. lia.
Qed.

(** The loop of [findCorrectPrefix], started at index [k] with count [k]. *)
Lemma prefixLoop_spec (userOrder correctOrder : list string) (k m : nat) :
  let n := ValidationUtils.prefixLoop userOrder correctOrder (seq k m) k in
  k ≤ n ≤ k + m
  ∧ (∀ i, k ≤ i < n → userOrder !! i = correctOrder !! i)
  ∧ (n < k + m → userOrder !! n ≠ correctOrder !! n).
Proof.
  revert k. induction m as [|m IH]; intros k; simpl.
  { split; [lia|]. split; intros; lia. }
  case_bool_decide as Hk.
  - rewrite Nat.add_1_r. destruct (IH (S k)) as (Hn & Hagree & Hstop).
    split; [lia|]. split.
    + intros i Hi. destruct (decide (i = k)) as [->|]; [done|].
      apply Hagree. lia.
    + intros Hlt. apply Hstop. lia.
  - split; [lia|]. split; [intros; lia|done].
Qed.

Lemma findCorrectPrefix_spec (userOrder correctOrder : list string) :
  let n := ValidationUtils.findCorrectPrefix userOrder correctOrder in
  n ≤ length userOrder `min` length correctOrder
  ∧ take n userOrder = take n correctOrder
  ∧ (n < length userOrder `min` length correctOrder →
     userOrder !! n ≠ correctOrder !! n).
Proof.
  unfold ValidationUtils.findCorrectPrefix.
  destruct (prefixLoop_spec userOrder correctOrder 0
              (length userOrder `min` length correctOrder))
    as (Hn & Hagree & Hstop).
  cbn zeta. split; [lia|]. split; [|done].
  apply take_eq_lookups. intros i Hi. apply Hagree. lia.
Qed.

(** X9. [findCorrectPrefix] is the length of the longest common prefix of
    the two orders: they agree on that many entries, and they differ at
    the next index unless one of them ends there. *)
Theorem findCorrectPrefix_longest (userOrder correctOrder : list string) :
  ValidationUtils.findCorrectPrefix userOrder correctOrder
  ≤ length userOrder `min` length correctOrder
  ∧ take (ValidationUtils.findCorrectPrefix userOrder correctOrder) userOrder
    = take (ValidationUtils.findCorrectPrefix userOrder correctOrder)
           correctOrder
  ∧ (ValidationUtils.findCorrectPrefix userOrder correctOrder
     < length userOrder `min` length correctOrder →
     userOrder !! ValidationUtils.findCorrectPrefix userOrder correctOrder
     ≠ correctOrder !! ValidationUtils.findCorrectPrefix userOrder correctOrder).
Proof. apply findCorrectPrefix_spec. Qed.

Section NextFacts.

Variable this : ProofValidator.
Implicit Types userOrder currentOrder : list string.

(** A prefix of the canonical order has itself as longest common prefix. *)
Lemma findCorrectPrefix_of_prefix currentOrder :
  currentOrder `prefix_of` this.(solutionOrder) →
  ValidationUtils.findCorrectPrefix currentOrder this.(solutionOrder)
  = length currentOrder.
Proof.
  intros Hprefix. pose proof (prefix_length _ _ Hprefix) as Hlen.
  destruct (findCorrectPrefix_spec currentOrder this.(solutionOrder))
    as (Hn & _ & Hstop). cbn zeta in *.
  destruct (decide (ValidationUtils.findCorrectPrefix currentOrder
                      this.(solutionOrder) = length currentOrder));
    [done|].
  destruct Hstop; [lia|]. apply prefix_lookup_lt; [lia|done].
Qed.

Lemma getNextExpectedBlock_spec currentOrder :
  getNextExpectedBlock this currentOrder
  = if bool_decide (length this.(solutionOrder) ≤ length currentOrder)
    then None
    else this.(solutionOrder)
         !! ValidationUtils.findCorrectPrefix currentOrder this.(solutionOrder).
Proof.
  unfold getNextExpectedBlock. case_bool_decide as Hlen; [done|].
  destruct (_isCorrectSequence this currentOrder 0 (length currentOrder))
    eqn:Hseq.
  { apply isCorrectSequence_prefix in Hseq.
    by rewrite findCorrectPrefix_of_prefix. }
  pose proof (find_seq_first
    (λ i, bool_decide (currentOrder !! i ≠ this.(solutionOrder) !! i))
    0 (length currentOrder)) as Hfind.
  destruct (find _ _) as [i|].
  - destruct Hfind as (Hi & Hdiff & Hfirst).
    apply bool_decide_eq_true in Hdiff.
    destruct (findCorrectPrefix_spec currentOrder this.(solutionOrder))
      as (Hn & Hagree & Hstop). cbn zeta in *.
    rewrite take_eq_lookups in Hagree.
    f_equal. symmetry.
    destruct (Nat.lt_trichotomy
                (ValidationUtils.findCorrectPrefix currentOrder
                   this.(solutionOrder)) i) as [Hlt|[Heq|Hgt]]; [|done|].
    + destruct Hstop; [lia|].
      specialize (Hfirst _ (conj (Nat.le_0_l _) Hlt)).
      apply bool_decide_eq_false in Hfirst.
      by destruct (decide (currentOrder
                           !! ValidationUtils.findCorrectPrefix currentOrder
                                this.(solutionOrder)
                           = this.(solutionOrder)
                             !! ValidationUtils.findCorrectPrefix currentOrder
                                  this.(solutionOrder))).
    + by destruct Hdiff; apply Hagree.
  - exfalso. apply not_true_iff_false in Hseq. apply Hseq.
    apply isCorrectSequence_prefix.
    assert (take (length currentOrder) currentOrder
            = take (length currentOrder) this.(solutionOrder)) as Htake.
    { apply take_eq_lookups. intros i Hi.
      specialize (Hfind i (conj (Nat.le_0_l _) Hi)).
      apply bool_decide_eq_false in Hfind.
      by destruct (decide (currentOrder !! i = this.(solutionOrder) !! i)). }
    rewrite firstn_all in Htake. rewrite Htake. apply prefix_take.
Qed.

End NextFacts.

(** X10. The next expected block is none exactly when the learner order is
    at least as long as the canonical order; otherwise it is the canonical
    entry at the end of the longest common prefix of the two orders. *)
Theorem getNextExpectedBlock_first_divergence (this : ProofValidator)
    (currentOrder : list string) :
  (getNextExpectedBlock this currentOrder = None
   ↔ length this.(solutionOrder) ≤ length currentOrder)
  ∧ (length currentOrder < length this.(solutionOrder) →
     getNextExpectedBlock this currentOrder
     = this.(solutionOrder)
       !! ValidationUtils.findCorrectPrefix currentOrder this.(solutionOrder)).
Proof.
  rewrite getNextExpectedBlock_spec. split.
  - case_bool_decide as Hlen; [done|]. split; [|done].
    intros Hnone%lookup_ge_None.
    destruct (findCorrectPrefix_spec currentOrder this.(solutionOrder))
      as (Hn & _). cbn zeta in Hn. lia.
  - intros Hlen. by rewrite bool_decide_eq_false_2 by lia.
Qed.

Lemma getNextExpectedBlock_first_divergence_witness :
  getNextExpectedBlock (constructor (abcd "A" "B" "C" "D")) ["a"; "c"]
  = (constructor (abcd "A" "B" "C" "D")).(solutionOrder)
    !! ValidationUtils.findCorrectPrefix ["a"; "c"]
         (constructor (abcd "A" "B" "C" "D")).(solutionOrder).
Proof.
  apply (getNextExpectedBlock_first_divergence
           (constructor (abcd "A" "B" "C" "D")) ["a"; "c"]).
  simpl. lia.
Defined.

Section PartialFacts.

Variable this : ProofValidator.
Implicit Types userOrder currentOrder : list string.

Lemma validatePartial_correctSoFar userOrder :
  Partial.correctSoFar (validatePartial this userOrder) = true
  ↔ userOrder `prefix_of` this.(solutionOrder).
Proof.
  unfold validatePartial. case_bool_decide as Hlen; simpl.
  - apply length_zero_iff_nil in Hlen. subst userOrder.
    split; [intros _; apply prefix_nil|done].
  - apply isCorrectSequence_prefix.
Qed.

(** The next expected block of the partial validation: the canonical entry
    at the length of the order; past the end of the canonical order it is
    [null], but [undefined] for the empty order. *)
Lemma validatePartial_nextExpected userOrder :
  Partial.nextExpected (validatePartial this userOrder)
  = match this.(solutionOrder) !! length userOrder with
    | Some id => Next.Id id
    | None => if bool_decide (userOrder = []) then Next.Undefined
              else Next.Null
    end.
Proof.
  unfold validatePartial, Next.element.
  destruct userOrder as [|id0 userOrder].
  - rewrite !bool_decide_eq_true_2 by done.
    cbn [Partial.nextExpected length].
    by destruct (this.(solutionOrder) !! 0).
  - rewrite (bool_decide_eq_false_2 (length (id0 :: userOrder) = 0)) by done.
    rewrite (bool_decide_eq_false_2 (id0 :: userOrder = [])) by done.
    cbn [Partial.nextExpected]. case_bool_decide as Hlt.
    + by destruct (lookup_lt_is_Some_2 _ _ Hlt) as [id ->].
    + by rewrite (proj2 (lookup_ge_None _ _)) by lia.
Qed.

(** The placement check, read off its three tests. *)
Lemma canPlaceBlock_spec (blockId : string) (position : Z) currentOrder :
  canPlaceBlock this blockId position currentOrder = true
  ↔ (0 ≤ position)%Z
    ∧ this.(solutionOrder) !! Z.to_nat position = Some blockId
    ∧ Z.to_nat position ≤ length currentOrder
    ∧ take (Z.to_nat position) currentOrder
      = take (Z.to_nat position) this.(solutionOrder).
Proof.
  unfold canPlaceBlock.
  destruct (bool_decide (position < 0)%Z) eqn:Hneg; simpl.
  { apply bool_decide_eq_true in Hneg. split; [done|]. lia. }
  apply bool_decide_eq_false in Hneg.
  destruct (bool_decide (Z.of_nat _ ≤ position)%Z) eqn:Hbig.
  { apply bool_decide_eq_true in Hbig. split; [done|].
    intros (_ & Hlookup%lookup_lt_Some & _). lia. }
  apply bool_decide_eq_false in Hbig.
  case_bool_decide as Hid.
  { split; [done|]. by intros (_ & Hlookup & _). }
  assert (this.(solutionOrder) !! Z.to_nat position = Some blockId) as Hlookup
    by (by destruct (decide (this.(solutionOrder) !! Z.to_nat position
                             = Some blockId))).
  rewrite forallb_forall, take_eq_lookups. split.
  - intros Hall.
    assert (∀ i, i < Z.to_nat position →
                 i < length currentOrder
                 ∧ currentOrder !! i = this.(solutionOrder) !! i) as Hall'.
    { intros i Hi. specialize (Hall i).
      rewrite negb_true_iff, orb_false_iff, !bool_decide_eq_false in Hall.
      destruct Hall as [Hlt Heq]; [apply in_seq; lia|]. split; [lia|].
      by destruct (decide (currentOrder !! i = this.(solutionOrder) !! i)). }
    split; [lia|]. split; [done|]. split; [|intros i Hi; by apply Hall'].
    destruct (Z.to_nat position) as [|n]; [lia|].
    destruct (Hall' n); lia.
  - intros (_ & _ & Hlen & Hagree) i Hi%in_seq.
    rewrite negb_true_iff, orb_false_iff, !bool_decide_eq_false.
    split; [lia|]. intros Hneq. apply Hneq, Hagree. lia.
Qed.

End PartialFacts.

(** X11. Partial validation calls an order correct so far exactly when it
    is a prefix of the canonical order; [isValid] is the same flag, and the
    next expected id is the canonical entry at the length of the order;
    when the order is at least as long as the canonical order there is
    none: the value is [null], and [undefined] for the empty order. *)
Theorem validatePartial_prefix (this : ProofValidator)
    (userOrder : list string) :
  (Partial.correctSoFar (validatePartial this userOrder) = true
   ↔ userOrder `prefix_of` this.(solutionOrder))
  ∧ Partial.isValid (validatePartial this userOrder)
    = Partial.correctSoFar (validatePartial this userOrder)
  ∧ Partial.nextExpected (validatePartial this userOrder)
    = match this.(solutionOrder) !! length userOrder with
      | Some id => Next.Id id
      | None => if bool_decide (userOrder = []) then Next.Undefined
                else Next.Null
      end.
Proof.
  split; [apply validatePartial_correctSoFar|].
  split; [|apply validatePartial_nextExpected].
  unfold validatePartial. by case_bool_decide.
Qed.

(** X12. For an order that is correct so far, the progress is a finite
    number between 0 and 100: the share of the canonical order that is
    placed, rounded to binary64, times 100, rounded again. The next expected
    block of the partial validation is the id [getNextExpectedBlock] gives;
    where that gives [null], the partial validation gives [null] too, except
    for the empty order, where it gives [undefined]. *)
Theorem validatePartial_correct_progress (this : ProofValidator)
    (userOrder : list string) :
  Partial.correctSoFar (validatePartial this userOrder) = true →
  (∃ q : Q, Partial.progress (validatePartial this userOrder) = Number.Fin q
            ∧ (0 <= q <= 100)%Q
            ∧ (userOrder ≠ [] →
               q = Binary64.round
                     (Binary64.round
                        (inject_Z (Z.of_nat (length userOrder))
                         / inject_Z (Z.of_nat (length this.(solutionOrder))))
                      * inject_Z 100)))
  ∧ Partial.nextExpected (validatePartial this userOrder)
    = match getNextExpectedBlock this userOrder with
      | Some id => Next.Id id
      | None => if bool_decide (userOrder = []) then Next.Undefined
                else Next.Null
      end.
Proof.
  intros Hprefix%validatePartial_correctSoFar.
  pose proof (prefix_length _ _ Hprefix) as Hlen. split.
  - unfold validatePartial. case_bool_decide as Hempty; cbn [Partial.progress].
    { exists 0%Q. split; [done|]. split; [by split|].
      intros Hne. by apply length_zero_iff_nil in Hempty. }
    assert (0 < length this.(solutionOrder)) as Hpos by lia.
    destruct (div_of_nat _ _ Hlen Hpos) as [-> Hshare].
    destruct (scale_share _ 100 Hshare) as [-> Hq]; [done|reflexivity..|].
    eexists. split; [reflexivity|]. split; [exact Hq|done].
  - rewrite validatePartial_nextExpected, getNextExpectedBlock_spec.
    destruct (decide (length this.(solutionOrder) ≤ length userOrder))
      as [Hfull|Hfull].
    + rewrite (bool_decide_eq_true_2 _ Hfull).
      by rewrite (proj2 (lookup_ge_None _ _)) by lia.
    + rewrite (bool_decide_eq_false_2 _ Hfull).
      rewrite findCorrectPrefix_of_prefix by done.
      destruct (lookup_lt_is_Some_2 this.(solutionOrder) (length userOrder))
        as [id ->]; [lia|done].
Qed.

Lemma validatePartial_correct_progress_witness :
  (∃ q : Q,
     Partial.progress
       (validatePartial (constructor (abcd "A" "B" "C" "D")) ["a"; "b"])
     = Number.Fin q
     ∧ (0 <= q <= 100)%Q
     ∧ (["a"; "b"] ≠ [] →
        q = Binary64.round
              (Binary64.round
                 (inject_Z (Z.of_nat (length ["a"; "b"]))
                  / inject_Z
                      (Z.of_nat
                         (length (constructor (abcd "A" "B" "C" "D"))
                                   .(solutionOrder))))
               * inject_Z 100)))
  ∧ Partial.nextExpected
      (validatePartial (constructor (abcd "A" "B" "C" "D")) ["a"; "b"])
    = match getNextExpectedBlock (constructor (abcd "A" "B" "C" "D"))
              ["a"; "b"] with
      | Some id => Next.Id id
      | None => if bool_decide (["a"; "b"] = []) then Next.Undefined
                else Next.Null
      end.
Proof.
  apply (validatePartial_correct_progress
           (constructor (abcd "A" "B" "C" "D")) ["a"; "b"]).
  vm_compute. reflexivity.
Defined.

(** X13. A block can be placed at a position exactly when the position is
    an index of the canonical order that holds this block, and the current
    order reaches that position and agrees with the canonical order on
    every earlier one. *)
Theorem canPlaceBlock_iff (this : ProofValidator) (blockId : string)
    (position : Z) (currentOrder : list string) :
  canPlaceBlock this blockId position currentOrder = true
  ↔ (0 ≤ position)%Z
    ∧ this.(solutionOrder) !! Z.to_nat position = Some blockId
    ∧ Z.to_nat position ≤ length currentOrder
    ∧ take (Z.to_nat position) currentOrder
      = take (Z.to_nat position) this.(solutionOrder).
Proof. apply canPlaceBlock_spec. Qed.

(** X14. On an order that is correct so far, a block can be placed at the
    end of the order exactly when it is the next expected block. *)
Theorem canPlaceBlock_next (this : ProofValidator) (blockId : string)
    (currentOrder : list string) :
  Partial.correctSoFar (validatePartial this currentOrder) = true →
  canPlaceBlock this blockId (Z.of_nat (length currentOrder)) currentOrder
  = true
  ↔ getNextExpectedBlock this currentOrder = Some blockId.
Proof.
  intros Hprefix%validatePartial_correctSoFar.
  rewrite canPlaceBlock_spec, getNextExpectedBlock_spec, Nat2Z.id.
  rewrite findCorrectPrefix_of_prefix by done.
  case_bool_decide as Hlen.
  - split; [|done]. intros (_ & Hlookup%lookup_lt_Some & _). lia.
  - split; [by intros (_ & Hlookup & _)|].
    intros Hlookup. split; [lia|]. split; [done|]. split; [done|].
    rewrite firstn_all. destruct Hprefix as [k ->].
    by rewrite take_app_length.
Qed.

Lemma canPlaceBlock_next_witness :
  canPlaceBlock (constructor (abcd "A" "B" "C" "D")) "c"
                (Z.of_nat (length ["a"; "b"])) ["a"; "b"] = true
  ↔ getNextExpectedBlock (constructor (abcd "A" "B" "C" "D")) ["a"; "b"]
    = Some "c".
Proof.
  apply (canPlaceBlock_next (constructor (abcd "A" "B" "C" "D")) "c"
           ["a"; "b"]).
  vm_compute. reflexivity.
Defined.

(* ===================================================================== *)
(** ** The exported utilities *)
(* ===================================================================== *)

Lemma every_index (userOrder correctOrder : list string) (k : nat) :
  forallb (λ '(block, index), bool_decide (Some block = correctOrder !! index))
          (zip userOrder (seq k (length userOrder))) = true
  ↔ ∀ i, i < length userOrder → userOrder !! i = correctOrder !! (k + i).
Proof.
  revert k. induction userOrder as [|x userOrder IH]; intros k; simpl.
  { split; [intros _ i Hi; lia|done]. }
  rewrite andb_true_iff, bool_decide_eq_true, IH. split.
  - intros [Hx Hrest] [|i] Hi; simpl.
    + by rewrite Nat.add_0_r.
    + rewrite Nat.add_succ_r. apply Hrest. lia.
  - intros Hall. split.
    + specialize (Hall 0). rewrite Nat.add_0_r in Hall. apply Hall. lia.
    + intros i Hi. specialize (Hall (S i)). rewrite Nat.add_succ_r in Hall.
      apply Hall. lia.
Qed.

(** X15. [isCorrectOrder] decides the equality of the two orders. *)
Theorem isCorrectOrder_iff_eq (userOrder correctOrder : list string) :
  ValidationUtils.isCorrectOrder userOrder correctOrder = true
  ↔ userOrder = correctOrder.
Proof.
  unfold ValidationUtils.isCorrectOrder. case_bool_decide as Hlen.
  { split; [done|]. by intros ->. }
  assert (length userOrder = length correctOrder) as Hlen'
    by (destruct (decide (length userOrder = length correctOrder)); tauto).
  rewrite every_index. split.
  - intros Hall. apply list_eq. intros i.
    destruct (decide (i < length userOrder)) as [Hi|Hi]; [by apply Hall|].
    rewrite !lookup_ge_None_2 by lia. done.
  - by intros ->.
Qed.

Lemma matches_fold (userOrder correctOrder : list string)
    (indices : list nat) (matches : nat) :
  foldl (λ matches i,
           if bool_decide (userOrder !! i = correctOrder !! i)
           then matches + 1 else matches)
        matches indices
  = matches
    + length (filter (λ i, userOrder !! i = correctOrder !! i) indices).
Proof.
  revert matches. induction indices as [|i indices IH]; intros matches; simpl.
  { lia. }
  rewrite IH, filter_cons.
  case_bool_decide; [rewrite decide_True by done|rewrite decide_False by done];
    simpl; lia.
Qed.

(** X16. The similarity of two orders is a finite number between 0 and
    100; it is 0 when the reference order is empty. *)
Theorem calculateSimilarity_range (userOrder correctOrder : list string) :
  (correctOrder = [] →
   ValidationUtils.calculateSimilarity userOrder correctOrder = Number.int 0)
  ∧ ∃ q : Q,
      ValidationUtils.calculateSimilarity userOrder correctOrder = Number.Fin q
      ∧ (0 <= q <= 100)%Q.
Proof.
  unfold ValidationUtils.calculateSimilarity. split; [by intros ->|].
  case_bool_decide as Hempty.
  { exists 0%Q. split; [done|]. split; [done|]. by compute. }
  rewrite matches_fold, Nat.add_0_l.
  assert (0 < length correctOrder) as Hpos by lia.
  assert (length (filter (λ i, userOrder !! i = correctOrder !! i)
                    (seq 0 (length userOrder `min` length correctOrder)))
          ≤ length correctOrder) as Hle.
  { etrans; [apply length_filter|]. rewrite length_seq. lia. }
  destruct (div_of_nat _ _ Hle Hpos) as [-> Hshare].
  destruct (scale_share _ 100 Hshare) as [-> Hq]; [done|reflexivity..|].
  eexists. split; [reflexivity|exact Hq].
Qed.

(** X17. Against a non-empty canonical order, the similarity utility and
    the analysis count the same positions: the similarity is the share of
    correctly positioned entries, times 100. *)
Theorem calculateSimilarity_analysis (this : ProofValidator)
    (userOrder : list string) :
  this.(solutionOrder) ≠ [] →
  ValidationUtils.calculateSimilarity userOrder this.(solutionOrder)
  = (Number.of_nat
       (length (Analysis.correctlyPositioned (_analyzeSequence this userOrder)))
     / Number.of_nat (length this.(solutionOrder)) * Number.int 100)%js.
Proof.
  intros Hne. unfold ValidationUtils.calculateSimilarity.
  rewrite bool_decide_eq_false_2
    by (intros Hlen; by apply length_zero_iff_nil in Hlen).
  by rewrite matches_fold, placed_count.
Qed.

Lemma calculateSimilarity_analysis_witness :
  ValidationUtils.calculateSimilarity ["a"; "c"; "b"; "d"]
    (constructor (abcd "A" "B" "C" "D")).(solutionOrder)
  = (Number.of_nat
       (length (Analysis.correctlyPositioned
                  (_analyzeSequence (constructor (abcd "A" "B" "C" "D"))
                                    ["a"; "c"; "b"; "d"])))
     / Number.of_nat (length (constructor (abcd "A" "B" "C" "D")).(solutionOrder))
     * Number.int 100)%js.
Proof.
  apply (calculateSimilarity_analysis (constructor (abcd "A" "B" "C" "D"))
           ["a"; "c"; "b"; "d"]).
  done.
Defined.

(* ===================================================================== *)
(** ** Statistics *)
(* ===================================================================== *)

Lemma string_length_append (s1 s2 : string) :
  String.length (s1 +:+ s2) = String.length s1 + String.length s2.
Proof. induction s1 as [|c s1 IH]; simpl; [done|]. by rewrite IH. Qed.

Lemma string_length_substring (m : nat) (s : string) :
  String.length (String.substring 0 m s) = m `min` String.length s.
Proof.
  revert m. induction s as [|c s IH]; intros [|m]; simpl; try done.
  by rewrite IH.
Qed.

Lemma truncateLatex_length (latex : string) (maxLength : nat) :
  String.length (_truncateLatex latex maxLength)
  = if bool_decide (String.length latex ≤ maxLength)
    then String.length latex else maxLength + 3.
Proof.
  unfold _truncateLatex. case_bool_decide; [done|].
  rewrite string_length_append, string_length_substring. simpl. lia.
Qed.

(** X18. A truncated text has at most [maxLength + 3] characters, and it is
    shorter than the text it comes from only when that text has more than
    [maxLength + 3] characters: a text that exceeds [maxLength] by one or
    two characters gets longer. *)
Theorem truncateLatex_lengths (latex : string) (maxLength : nat) :
  String.length (_truncateLatex latex maxLength) ≤ maxLength + 3
  ∧ (String.length (_truncateLatex latex maxLength) < String.length latex
     ↔ maxLength + 3 < String.length latex).
Proof. rewrite truncateLatex_length. case_bool_decide; lia. Qed.

(** X19. The statistics list the blocks of the catalogue in their order,
    each with a preview of at most 33 characters that is the whole text
    when the text has at most 30. *)
Theorem getStatistics_blockTypes (this : ProofValidator) :
  BlockType.id <$> Statistics.blockTypes (getStatistics this)
  = blockIds this.(puzzle)
  ∧ Forall (λ t, String.length (BlockType.preview t) ≤ 33)
           (Statistics.blockTypes (getStatistics this))
  ∧ ∀ i block, Puzzle.blocks this.(puzzle) !! i = Some block →
      String.length (Block.latex block) ≤ 30 →
      Statistics.blockTypes (getStatistics this) !! i
      = Some (BlockType.mk (Block.id block) (Block.latex block)).
Proof.
  unfold getStatistics, blockIds. simpl. split; [|split].
  - rewrite <- list_fmap_compose. done.
  - apply Forall_fmap, Forall_forall. intros block _. simpl.
    rewrite truncateLatex_length. case_bool_decide; lia.
  - intros i block Hi Hlen. rewrite list_lookup_fmap, Hi. simpl.
    unfold _truncateLatex. by rewrite bool_decide_eq_true_2.
Qed.

(* ===================================================================== *)
(** ** What the hints say *)
(* ===================================================================== *)

Section HintSoundness.

Variable this : ProofValidator.
Implicit Types (st : HintState) (userOrder : list string).

Lemma sound_push userOrder (hints : list Hint.t) (h : Hint.t) :
  Forall (hint_sound this userOrder) hints →
  hint_sound this userOrder h →
  Forall (hint_sound this userOrder) (hints ++ [h]).
Proof. intros Hhints Hh. apply Forall_app. by split; [|apply Forall_singleton]. Qed.

Lemma positionHint_sound (result : Analysis.t) userOrder st :
  Forall (λ e, userOrder !! Misplaced.position e = Some (Misplaced.blockId e)
               ∧ this.(solutionOrder) !! Misplaced.position e
                 = Some (Misplaced.expectedBlockId e)
               ∧ Misplaced.blockId e ≠ Misplaced.expectedBlockId e)
         (Analysis.incorrectlyPositioned result) →
  Forall (hint_sound this userOrder) (fst st) →
  Forall (hint_sound this userOrder) (fst (positionHint this result st)).
Proof.
  destruct st as [hints usedBlocks]. intros Hip Hst. unfold positionHint.
  destruct (Analysis.incorrectlyPositioned result) as [|firstError ?]; [done|].
  apply Forall_cons in Hip as [(Hu & Hs & Hneq) _].
  destruct (this.(blockMap) !! _) as [expectedBlock|] eqn:Hblock; [|done].
  case_bool_decide; [|done]. simpl. apply sound_push; [done|].
  exists (Misplaced.expectedBlockId firstError), expectedBlock.
  repeat split; try done.
  { by eapply list_elem_of_lookup_2. }
  left. split; [done|]. exists (Misplaced.position firstError).
  repeat split; try done.
  - by eapply lookup_lt_Some.
  - rewrite Hu. congruence.
Qed.

Lemma firstMissingHint_sound userOrder (ids : list string) st :
  ids ⊆ this.(solutionOrder) →
  Forall (hint_sound this userOrder) (fst st) →
  Forall (hint_sound this userOrder)
         (fst (firstMissingHint this userOrder ids st)).
Proof.
  destruct st as [hints usedBlocks]. intros Hids Hst.
  induction ids as [|blockId rest IH]; simpl; [done|].
  assert (rest ⊆ this.(solutionOrder)) as Hrest
    by (intros y Hy; apply Hids; by right).
  case_bool_decide; [|done].
  case_bool_decide as Hmissing; simpl; [|by apply IH].
  case_bool_decide; simpl; [|by apply IH].
  destruct (this.(blockMap) !! _) as [missingBlock|] eqn:Hblock; [|by apply IH].
  simpl. apply sound_push; [done|]. exists blockId, missingBlock.
  repeat split; try done.
  { apply Hids. by left. }
  right. by left.
Qed.

Lemma nextHint_sound userOrder st :
  Forall (hint_sound this userOrder) (fst st) →
  Forall (hint_sound this userOrder) (fst (nextHint this userOrder st)).
Proof.
  destruct st as [hints usedBlocks]. intros Hst. unfold nextHint.
  destruct (_ && _); [|done].
  destruct (getNextExpectedBlock this userOrder) as [nextExpected|] eqn:Hnext;
    [|done].
  destruct (_ && _); [|done].
  destruct (this.(blockMap) !! _) as [nextBlock|] eqn:Hblock; [|done].
  simpl. apply sound_push; [done|]. exists nextExpected, nextBlock.
  repeat split; try done.
  { rewrite getNextExpectedBlock_spec in Hnext.
    case_bool_decide; [done|]. by eapply list_elem_of_lookup_2. }
  right. by right.
Qed.

Lemma moreMissingHints_sound userOrder (missingIds : list string) st :
  Forall (λ id, id ∈ this.(solutionOrder) ∧ id ∉ userOrder) missingIds →
  Forall (hint_sound this userOrder) (fst st) →
  Forall (hint_sound this userOrder)
         (fst (moreMissingHints this missingIds st)).
Proof.
  revert st. induction missingIds as [|missingId rest IH];
    intros [hints usedBlocks] Hids Hst; simpl; [done|].
  apply Forall_cons in Hids as [[Hs Hu] Hids].
  case_bool_decide; [|done].
  destruct (this.(blockMap) !! _) as [missingBlock|] eqn:Hblock; [|by apply IH].
  apply IH; [done|]. simpl. apply sound_push; [done|].
  exists missingId, missingBlock. repeat split; try done. right. by left.
Qed.

Lemma generateHints_sound userOrder :
  BlockValidation.isValid (validateBlockIds this userOrder) = true →
  Forall (hint_sound this userOrder)
         (_generateHints this (_analyzeSequence this userOrder) userOrder).
Proof.
  intros Hvalid. unfold _generateHints.
  destruct (Analysis.correctSequence _); [done|].
  rewrite Hvalid. simpl negb. cbv iota.
  set (st1 := positionHint this _ _).
  assert (Forall (hint_sound this userOrder) (fst st1)) as H1.
  { apply positionHint_sound; [|done].
    rewrite analysis_incorrectlyPositioned.
    destruct (classify_fold_spec this userOrder _ ([], [])
                (classify_range this userOrder)) as (_ & _ & _ & Hip).
    apply Forall_forall. intros e He.
    destruct (Hip e He) as [Hin|]; [by apply elem_of_nil in Hin|done]. }
  set (st2 := missingHint this _ _ st1).
  assert (Forall (hint_sound this userOrder) (fst st2)) as H2.
  { unfold st2, missingHint. destruct (_ && _); [|done].
    by apply firstMissingHint_sound. }
  set (st3 := nextHint this _ st2).
  assert (Forall (hint_sound this userOrder) (fst st3)) as H3
    by (by apply nextHint_sound).
  unfold fillHints. destruct st3 as [hints usedBlocks].
  destruct (_ && _); [|done].
  apply moreMissingHints_sound; [|done].
  apply Forall_forall. intros id Hid%list_elem_of_filter. tauto.
Qed.

End HintSoundness.

(** X20. Every hint of a validation result tells the truth: it is about an
    id of the canonical order, it carries the text of the block the
    validator holds for that id, and it is a position hint for an index
    where the learner order has another id than the canonical one, a
    missing hint for an id the learner order lacks, or a next hint for the
    next expected block. *)
Theorem hints_are_sound (this : ProofValidator) (userOrder : list string)
    (hs : list Hint.t) :
  Validation.hints (validateProof this userOrder) = Some hs →
  Forall (hint_sound this userOrder) hs.
Proof.
  unfold validateProof. case_bool_decide; [done|].
  destruct (BlockValidation.isValid _) eqn:Hvalid; simpl; intros [= <-].
  - by apply generateHints_sound.
  - done.
Qed.

Lemma hints_are_sound_witness :
  Forall (hint_sound (constructor (abcd "A" "B" "C" "D")) ["a"; "b"])
    [Hint.mk "missing" "You're missing this important step:" "C"
             None None (Some "c");
     Hint.mk "missing" "Consider this step:" "D"
             None None (Some "d")].
Proof.
  apply (hints_are_sound (constructor (abcd "A" "B" "C" "D")) ["a"; "b"]).
  vm_compute. reflexivity.
Defined.

(** X21. The text a hint carries comes from the catalogue of the puzzle:
    every hint of a validation result names the id of a block of the
    puzzle and carries the text of such a block. *)
Theorem hints_carry_catalogue_text (p : Puzzle.t) (userOrder : list string)
    (hs : list Hint.t) :
  Validation.hints (validate p userOrder) = Some hs →
  Forall (λ h, ∃ block, block ∈ Puzzle.blocks p
                        ∧ Hint.fragmentId h = Some (Block.id block)
                        ∧ Hint.latex h = Block.latex block) hs.
Proof.
  unfold validate, validateProof. case_bool_decide; [done|].
  destruct (BlockValidation.isValid _) eqn:Hvalid; simpl; intros [= <-];
    [|done].
  eapply Forall_impl; [by apply generateHints_sound|].
  intros h (id & block & Hid & Hblock & Hlatex & _).
  rewrite blockMap_lookup in Hblock.
  assert (block ∈ filter (λ b, Block.id b = id) (Puzzle.blocks p)) as Hin.
  { apply last_Some in Hblock as [l' ->]. apply elem_of_app. right. by left. }
  apply list_elem_of_filter in Hin as [<- Hin]. by exists block.
Qed.

Lemma hints_carry_catalogue_text_witness :
  Forall (λ h, ∃ block, block ∈ Puzzle.blocks (abcd "A" "B" "C" "D")
                        ∧ Hint.fragmentId h = Some (Block.id block)
                        ∧ Hint.latex h = Block.latex block)
    [Hint.mk "position" "The block at position 2 should be:" "B"
             (Some 1) (Some "b") None].
Proof.
  apply (hints_carry_catalogue_text (abcd "A" "B" "C" "D")
           ["a"; "c"; "b"; "d"]).
  vm_compute. reflexivity.
Defined.

(* ===================================================================== *)
(** ** The debugging view and the score display *)
(* ===================================================================== *)

(** X22. For a non-empty order of catalogue ids, the debugging view shows
    the analysis and the hints of the validation result itself. *)
Theorem debugValidation_agrees (this : ProofValidator)
    (userOrder : list string) :
  userOrder ≠ [] →
  Forall (λ id, id ∈ blockIds this.(puzzle)) userOrder →
  Validation.details (Debug.validation (debugValidation this userOrder))
  = Details.Sequence (Debug.analysis (debugValidation this userOrder))
  ∧ Validation.hints (Debug.validation (debugValidation this userOrder))
    = Some (Debug.hints (debugValidation this userOrder))
  ∧ Validation.score (Debug.validation (debugValidation this userOrder))
    = _calculateScore (Debug.analysis (debugValidation this userOrder)).
Proof.
  intros Hne Hvalid%validateBlockIds_isValid.
  unfold debugValidation, validateProof.
  cbn [Debug.validation Debug.analysis Debug.hints].
  rewrite bool_decide_eq_false_2
    by (intros Hlen; by apply length_zero_iff_nil in Hlen).
  by rewrite Hvalid.
Qed.

Lemma debugValidation_agrees_witness :
  Validation.details
    (Debug.validation
       (debugValidation (constructor (abcd "A" "B" "C" "D")) ["a"; "c"]))
  = Details.Sequence
      (Debug.analysis
         (debugValidation (constructor (abcd "A" "B" "C" "D")) ["a"; "c"]))
  ∧ Validation.hints
      (Debug.validation
         (debugValidation (constructor (abcd "A" "B" "C" "D")) ["a"; "c"]))
    = Some (Debug.hints
              (debugValidation (constructor (abcd "A" "B" "C" "D")) ["a"; "c"]))
  ∧ Validation.score
      (Debug.validation
         (debugValidation (constructor (abcd "A" "B" "C" "D")) ["a"; "c"]))
    = _calculateScore
        (Debug.analysis
           (debugValidation (constructor (abcd "A" "B" "C" "D")) ["a"; "c"])).
Proof.
  apply (debugValidation_agrees (constructor (abcd "A" "B" "C" "D"))
           ["a"; "c"]).
  - done.
  - apply (bool_decide_unpack _). vm_compute. reflexivity.
Defined.

(** X23. For an order with a foreign id that is not the canonical order,
    the debugging view and the validation result disagree: the view shows
    the one error hint, the validation result an empty hint list. *)
Theorem debugValidation_foreign (this : ProofValidator)
    (userOrder : list string) (id : string) :
  id ∈ userOrder →
  id ∉ blockIds this.(puzzle) →
  userOrder ≠ this.(solutionOrder) →
  Debug.hints (debugValidation this userOrder) = [errorHint]
  ∧ Validation.hints (Debug.validation (debugValidation this userOrder))
    = Some [].
Proof.
  intros Hin Hforeign Hne. unfold debugValidation.
  cbn [Debug.validation Debug.analysis Debug.hints]. split.
  - unfold _generateHints.
    destruct (Analysis.correctSequence _) eqn:Hseq.
    { by apply correctSequence_iff in Hseq. }
    by rewrite (validateBlockIds_foreign this _ id).
  - unfold validateProof.
    destruct userOrder as [|id0 userOrder]; [by apply elem_of_nil in Hin|].
    rewrite bool_decide_eq_false_2 by done.
    by rewrite (validateBlockIds_foreign this _ id).
Qed.

Lemma debugValidation_foreign_witness :
  Debug.hints
    (debugValidation (constructor (abcd "A" "B" "C" "D")) ["a"; "x"])
  = [errorHint]
  ∧ Validation.hints
      (Debug.validation
         (debugValidation (constructor (abcd "A" "B" "C" "D")) ["a"; "x"]))
    = Some [].
Proof.
  apply (debugValidation_foreign (constructor (abcd "A" "B" "C" "D"))
           ["a"; "x"] "x").
  - apply (bool_decide_unpack _). vm_compute. reflexivity.
  - apply (bool_decide_unpack _). vm_compute. reflexivity.
  - discriminate.
Defined.

(** X24. A correct result is shown in green with a star: its score passes
    the highest threshold of both classifiers of the display. *)
Theorem correct_result_display (p : Puzzle.t) (userOrder : list string) :
  Validation.isCorrect (validate p userOrder) = true →
  ProofValidationDisplay.getScoreColor
    (Validation.score (validate p userOrder)) = "#4CAF50"
  ∧ ProofValidationDisplay.getScoreEmoji
      (Validation.score (validate p userOrder)) = "🌟".
Proof.
  intros (Hne & Hvalid & Hseq)%isCorrect_inv.
  assert (Validation.score (validate p userOrder) = Number.int 100) as ->.
  { unfold validate, validateProof.
    rewrite bool_decide_eq_false_2
      by (intros Hlen; by apply length_zero_iff_nil in Hlen).
    rewrite Hvalid. simpl. unfold _calculateScore. by rewrite Hseq. }
  split; vm_compute; reflexivity.
Qed.

Lemma correct_result_display_witness :
  ProofValidationDisplay.getScoreColor
    (Validation.score (validate ab ["a"; "b"])) = "#4CAF50"
  ∧ ProofValidationDisplay.getScoreEmoji
      (Validation.score (validate ab ["a"; "b"])) = "🌟".
Proof.
  apply (correct_result_display ab ["a"; "b"]). vm_compute. reflexivity.
Defined.

(* ===================================================================== *)
(** ** Division by an empty canonical order *)
(* ===================================================================== *)

(** X25. The score is NaN exactly when the canonical order is empty and the
    learner order is a non-empty order of catalogue ids. *)
Theorem score_NaN_iff (p : Puzzle.t) (userOrder : list string) :
  Validation.score (validate p userOrder) = Number.NaN
  ↔ Puzzle.solutionOrder p = []
    ∧ userOrder ≠ []
    ∧ Forall (λ id, id ∈ blockIds p) userOrder.
Proof.
  unfold validate, validateProof. case_bool_decide as Hlen.
  { split; [done|]. intros (_ & Hne & _).
    by apply length_zero_iff_nil in Hlen. }
  assert (userOrder ≠ []) as Hne by (by intros ->).
  destruct (BlockValidation.isValid _) eqn:Hvalid; simpl.
  - apply validateBlockIds_isValid in Hvalid. simpl in Hvalid.
    split; [|intros (Hs & _)].
    + intros Hnan. split; [|done].
      destruct (Puzzle.solutionOrder p) as [|id0 rest] eqn:Hs; [done|].
      destruct (calculateScore_range
                  (_analyzeSequence (constructor p) userOrder))
        as (z & Hz & _).
      * rewrite analysis_totalBlocks. simpl. rewrite Hs. simpl. lia.
      * rewrite analysis_totalBlocks. apply placed_le_total.
      * rewrite analysis_totalBlocks. apply correctBlocks_le_total.
      * rewrite Hz in Hnan. discriminate.
    + pose proof (placed_le_total (constructor p) userOrder) as Hcp.
      pose proof (correctBlocks_le_total (constructor p) userOrder) as Hcb.
      simpl in Hcp, Hcb. rewrite Hs in Hcp, Hcb. simpl in Hcp, Hcb.
      unfold _calculateScore.
      destruct (Analysis.correctSequence _) eqn:Hseq.
      { apply correctSequence_iff in Hseq. simpl in Hseq. congruence. }
      rewrite analysis_totalBlocks. simpl solutionOrder. rewrite Hs.
      simpl length.
      destruct (length (Analysis.correctlyPositioned _)); [|lia].
      destruct (Analysis.correctBlocks _); [|lia].
      reflexivity.
  - split; [done|]. intros (_ & _ & Hall).
    apply (validateBlockIds_isValid (constructor p)) in Hall. congruence.
Qed.

(** X26. Over an empty canonical order, the progress of a non-empty order
    is Infinity. *)
Theorem validatePartial_progress_infinite (this : ProofValidator)
    (userOrder : list string) :
  this.(solutionOrder) = [] →
  userOrder ≠ [] →
  Partial.progress (validatePartial this userOrder) = Number.Inf false.
Proof.
  intros Hs Hne. unfold validatePartial.
  rewrite bool_decide_eq_false_2
    by (intros Hlen; by apply length_zero_iff_nil in Hlen).
  cbn [Partial.progress]. rewrite Hs.
  destruct userOrder as [|id0 userOrder]; [done|]. reflexivity.
Qed.

Lemma validatePartial_progress_infinite_witness :
  Partial.progress (validatePartial (constructor no_steps) ["a"])
  = Number.Inf false.
Proof.
  apply (validatePartial_progress_infinite (constructor no_steps) ["a"]);
    done.
Defined.
